(** * Flow aggregation and layout of the three-level sankey diagram

    A shallow embedding of [src/sankey.py] (function
    [create_sankey_diagram] and its helpers) together with the properties
    of its flow aggregation, category ordering, layout and node indexing.

    Modelling conventions.
    - A pandas DataFrame is a list of rows; a row is a record with one
      field per column that the function reads.
    - Floating point numbers are modelled by exact rationals ([Qc]); the
      counts of the binary mode are integers injected into [Qc].
    - Python dictionaries are finite maps ([gmap]); dictionaries whose
      iteration order is used are association lists; Python sets are
      [gset]s.
    - Exceptions are values of the error monad [result]. *)

From Stdlib Require Import Ascii QArith Qcanon.
From stdpp Require Import base numbers list sorting strings pretty gmap.

Local Open Scope string_scope.
Local Open Scope list_scope.

(** ** Exceptions *)

Inductive exn : Type :=
  | KeyError (key : string)
  | ZeroDivisionError
  | ValueError.

Inductive result (A : Type) : Type :=
  | Ok (a : A)
  | Raise (e : exn).
Arguments Ok {A} a.
Arguments Raise {A} e.

Global Instance result_ret : MRet result := λ A a, Ok a.
Global Instance result_bind : MBind result := λ A B k m,
  match m with
  | Ok a => k a
  | Raise e => Raise e
  end.

(** A [for] loop that appends one item per element and may raise. *)
Fixpoint rmapM {A B} (f : A → result B) (l : list A) : result (list B) :=
  match l with
  | [] => Ok []
  | a :: l' => b ← f a; bs ← rmapM f l'; Ok (b :: bs)
  end.

(** [d[k]] on a dictionary: [KeyError] when the key is absent. *)
Definition getitem {V} (d : gmap string V) (k : string) : result V :=
  match d !! k with
  | Some v => Ok v
  | None => Raise (KeyError k)
  end.

(** [d.get(k, dflt)] on a dictionary. *)
Definition dict_get {V} (d : gmap string V) (k : string) (dflt : V) : V :=
  default dflt (d !! k).

(** ** Numbers *)

(** The decimal literal [n / d]. *)
Definition dec (n : Z) (d : positive) : Qc := Q2Qc (n # d).

Definition Qc_of_nat (n : nat) : Qc := Qc_of_Z (Z.of_nat n).

(** [sum] of a numeric column. *)
Definition sum_Qc (l : list Qc) : Qc := foldr Qcplus 0%Qc l.
Definition sum_Z (l : list Z) : Z := foldr Z.add 0%Z l.

(** Float division [a / b]; Python raises on a zero divisor. *)
Definition py_div (a b : Qc) : result Qc :=
  if decide (b = 0%Qc) then Raise ZeroDivisionError else Ok (a / b)%Qc.

(** ** Static tables *)

Definition FAMESWAP_LABELS : gmap string string :=
  list_to_map [
    ("Tech & Science", "Technology");
    ("Educational & QA", "Education");
    ("Quotes & Sayings", "Quotes");
    ("Pets & Animals", "Pets");
    ("Food & Nutrition", "Food");
    ("Outdoor & Travel", "Travel");
    ("Art & Creativity", "Creativity");
    ("Cars & Bikes", "Cars");
    ("Crypto & NFT", "Crypto");
    ("Beauty & Makeup", "Beauty");
    ("Fitness & Sports", "Sports");
    ("Reviews & How-to", "How-to");
    ("Models & Celebrities", "Celebrities");
    ("Humor & Memes", "Memes");
    ("Luxury & Motivation", "Motivation");
    ("Gaming & Entertainment", "Gaming");
    ("Fashion & Style", "Fashion");
    ("Movies TV & Fanpages", "Fanpages") ].

Definition TOPIC_LABELS : gmap string string :=
  list_to_map [
    ("cryptocurrency_content", "Cryptocurrency");
    ("financial_content", "Money");
    ("gambling_content", "Gambling");
    ("hateful_extremist_content", "Extremist");
    ("manosphere_redpill_content", "Manosphere");
    ("medical_health_content", "Medical");
    ("news_content", "News");
    ("political_content", "Political");
    ("religious_content", "Religious");
    ("unclassified", "Not at-risk") ].

Definition FAMESWAP_ORDER : list string := [
  "Humor & Memes"; "Gaming & Entertainment"; "Tech & Science"; "Educational & QA";
  "Reviews & How-to"; "Models & Celebrities"; "Luxury & Motivation"; "Movies TV & Fanpages";
  "Fitness & Sports"; "Fashion & Style"; "Quotes & Sayings"; "Crypto & NFT";
  "Food & Nutrition"; "Art & Creativity"; "Cars & Bikes"; "Outdoor & Travel";
  "Pets & Animals"; "Beauty & Makeup" ].

Definition BROAD_CATEGORY_ORDER : list string := ["Other"; "Ideological"; "Financial"].

Definition SPECIFIC_TOPIC_ORDER : list string := [
  "Not at-risk"; "Political"; "News"; "Religious"; "Medical"; "Manosphere";
  "Extremist"; "Cryptocurrency"; "Money"; "Gambling" ].

(** The tables local to [create_sankey_diagram]. [broad_categories] is
    iterated with [.items()], so it keeps its insertion order. *)
Definition broad_categories : list (string * list string) := [
  ("Ideological", ["Political"; "Religious"; "News"; "Medical"; "Manosphere"; "Extremist"]);
  ("Financial", ["Cryptocurrency"; "Money"; "Gambling"]);
  ("Other", ["Not at-risk"]) ].

Definition broad_colors : gmap string string :=
  list_to_map [
    ("Ideological", "#FF6B6B");
    ("Financial", "#4ECDC4");
    ("Other", "#BDC3C7") ].

Definition topic_colors : gmap string string :=
  list_to_map [
    ("Cryptocurrency", "#45B7D1");
    ("Money", "#85C1E9");
    ("Gambling", "#5DADE2");
    ("Extremist", "#F8C471");
    ("Manosphere", "#BB8FCE");
    ("Medical", "#F7DC6F");
    ("News", "#D7BDE2");
    ("Political", "#EC7063");
    ("Religious", "#F9E79F");
    ("Not at-risk", "#BDC3C7") ].

Definition specific_y_positions : gmap string Qc :=
  list_to_map [
    ("Political", dec 1 10);
    ("News", dec 2 10);
    ("Religious", dec 3 10);
    ("Medical", dec 4 10);
    ("Manosphere", dec 45 100);
    ("Extremist", dec 5 10);
    ("Cryptocurrency", dec 6 10);
    ("Money", dec 68 100);
    ("Gambling", dec 75 100);
    ("Not at-risk", dec 1 10000) ].

Definition invisible_nodes : gset string := {[ "Other"; "Not at-risk" ]}.

Definition transparent : string := "rgba(0,0,0,0)".

(** ** The input table *)

(** One row of the input DataFrame: the primary category and the ten
    topic indicator columns. *)
Record Row : Type := {
  fameswap_category : string;
  cryptocurrency_content : Z;
  financial_content : Z;
  gambling_content : Z;
  hateful_extremist_content : Z;
  manosphere_redpill_content : Z;
  medical_health_content : Z;
  news_content : Z;
  political_content : Z;
  religious_content : Z;
  unclassified : Z
}.

Abbreviation DataFrame := (list Row).

(** A column of the table: its name and the projection reading it. *)
Abbreviation Column := (string * (Row → Z))%type.

Definition topic_columns : list Column := [
  ("cryptocurrency_content", cryptocurrency_content);
  ("financial_content", financial_content);
  ("gambling_content", gambling_content);
  ("hateful_extremist_content", hateful_extremist_content);
  ("manosphere_redpill_content", manosphere_redpill_content);
  ("medical_health_content", medical_health_content);
  ("news_content", news_content);
  ("political_content", political_content);
  ("religious_content", religious_content);
  ("unclassified", unclassified) ].

(** [TOPIC_LABELS[topic_col]] for a processed column. Every name of
    [topic_columns] is a key of [TOPIC_LABELS] (lemma
    [TOPIC_LABELS_total]), so the subscript cannot raise. *)
Definition topic_label (topic_col : Column) : string :=
  TOPIC_LABELS !!! topic_col.1.

(** ** Sorting and grouping *)

(** [sorted(xs)] on strings. *)
Definition sorted (xs : list string) : list string := merge_sort String.le xs.

(** [Series.unique()]: distinct values in order of first appearance. *)
Fixpoint unique {A} `{EqDecision A} (l : list A) : list A :=
  match l with
  | [] => []
  | x :: l' => x :: filter (λ y, y ≠ x) (unique l')
  end.

(** Lexicographic order on the key pairs of a two-column [groupby]. *)
Definition pair_le (a b : string * string) : Prop :=
  String.le a.1 b.1 ∧ (a.1 = b.1 → String.le a.2 b.2).

Global Instance pair_le_dec : RelDecision pair_le.
Proof. intros a b. unfold pair_le. apply _. Defined.

(** [rows.groupby(key)]: the distinct keys in sorted order, each with
    its group of rows. *)
Definition groupby {A K} `{EqDecision K} (sort_keys : list K → list K)
    (key : A → K) (rows : list A) : list (K * list A) :=
  (λ k, (k, filter (λ r, key r = k) rows)) <$> sort_keys (unique (key <$> rows)).

(** [rows.groupby(key)[val].sum().reset_index()] *)
Definition groupby_sum {A K} `{EqDecision K} (sort_keys : list K → list K)
    (key : A → K) (val : A → Qc) (rows : list A) : list (K * Qc) :=
  (λ g, (g.1, sum_Qc (val <$> g.2))) <$> groupby sort_keys key rows.

(** [rows.groupby(key).size().reset_index(name='count')] *)
Definition groupby_size {A K} `{EqDecision K} (sort_keys : list K → list K)
    (key : A → K) (rows : list A) : list (K * Qc) :=
  (λ g, (g.1, Qc_of_nat (length g.2))) <$> groupby sort_keys key rows.

(** ** [get_ordered_list] *)

(** The loop over [order_list]: state [(ordered, remaining)]. *)
Fixpoint order_loop (order_list : list string)
    (st : list string * gset string) : list string * gset string :=
  match order_list with
  | [] => st
  | item :: rest =>
      if decide (item ∈ st.2)
      then order_loop rest (st.1 ++ [item], st.2 ∖ {[ item ]})
      else order_loop rest st
  end.

Definition get_ordered_list (available_items order_list : list string) : list string :=
  let st := order_loop order_list ([], list_to_set available_items) in
  st.1 ++ sorted (elements st.2).

(** ** [hex_to_rgba] *)

Definition hex_digit (c : ascii) : option N :=
  let n := N_of_ascii c in
  if decide (48 ≤ n ≤ 57)%N then Some (n - 48)%N
  else if decide (97 ≤ n ≤ 102)%N then Some (n - 87)%N
  else if decide (65 ≤ n ≤ 70)%N then Some (n - 55)%N
  else None.

(** [int(s, 16)] on a slice of at most two characters. Only plain hex
    digits are accepted (the color tables hold nothing else). *)
Definition int16 (s : string) : result N :=
  match s with
  | String c1 EmptyString =>
      match hex_digit c1 with Some d => Ok d | None => Raise ValueError end
  | String c1 (String c2 EmptyString) =>
      match hex_digit c1, hex_digit c2 with
      | Some d1, Some d2 => Ok (16 * d1 + d2)%N
      | _, _ => Raise ValueError
      end
  | _ => Raise ValueError
  end.

(** [s.lstrip('#')] *)
Fixpoint lstrip_hash (s : string) : string :=
  match s with
  | String c s' => if decide (c = "#"%char) then lstrip_hash s' else s
  | EmptyString => s
  end.

(** [alpha] is only interpolated into the result, so it is carried in
    its printed form. *)
Definition hex_to_rgba (hex_color : string) (alpha : string) : result string :=
  let hex_color := lstrip_hash hex_color in
  rgb ← rmapM (λ i, int16 (String.substring i 2 hex_color)) [0; 2; 4];
  match rgb with
  | [r; g; b] =>
      Ok ("rgba(" +:+ pretty r +:+ ", " +:+ pretty g +:+ ", " +:+ pretty b
            +:+ ", " +:+ alpha +:+ ")")
  | _ => Raise ValueError
  end.

(** ** Flow aggregation *)

(** A row of one frame of [topic_flows]. *)
Record TopicFlow : Type := {
  tf_fameswap_category : string;
  tf_count : Qc;
  tf_specific_topic : string
}.

(** A row of [all_flows] once the [broad_category] column is added;
    [None] is the missing value that [Series.map] leaves for a key absent
    from the dictionary. *)
Record Flow : Type := {
  flow_fameswap_category : string;
  flow_count : Qc;
  flow_specific_topic : string;
  flow_broad_category : option string
}.

(** A row of [broad_flows] or of [specific_flows]: the two key columns
    and the summed [count]. *)
Abbreviation GroupedFlow := ((string * string) * Qc)%type.

Definition df_filtered (df : DataFrame) : DataFrame :=
  filter (λ r, fameswap_category r ≠ "Beauty & Makeup") df.

(** [topic_sums]: the row sum over the topic columns, taken before any
    column is overwritten. *)
Definition topic_sums (r : Row) : Z :=
  sum_Z ((λ topic_col : Column, topic_col.2 r) <$> topic_columns).

(** The value of column [topic_col] of [df_normalized] on row [r] when
    the first loop of the proportional branch has run. *)
Definition normalized (r : Row) (topic_col : Column) : Qc :=
  if decide (topic_col.2 r = 1%Z ∧ (0 < topic_sums r)%Z)
  then (1 / Qc_of_Z (topic_sums r))%Qc
  else 0%Qc.

Definition mk_topic_flows (topic_col : Column) (flows : list (string * Qc)) : list TopicFlow :=
  (λ g, {| tf_fameswap_category := g.1; tf_count := g.2;
           tf_specific_topic := topic_label topic_col |}) <$> flows.

(** One iteration of the second loop of the proportional branch. *)
Definition proportional_flows_of (df_normalized : DataFrame) (topic_col : Column)
    : option (list TopicFlow) :=
  let topic_channels := filter (λ r, (0 < normalized r topic_col)%Qc) df_normalized in
  if decide (0 < length topic_channels)
  then Some (mk_topic_flows topic_col
               (groupby_sum sorted fameswap_category (λ r, normalized r topic_col)
                  topic_channels))
  else None.

(** One iteration of the loop of the binary branch. *)
Definition binary_flows_of (df_filtered : DataFrame) (topic_col : Column)
    : option (list TopicFlow) :=
  let topic_channels := filter (λ r, topic_col.2 r = 1%Z) df_filtered in
  if decide (0 < length topic_channels)
  then Some (mk_topic_flows topic_col
               (groupby_size sorted fameswap_category topic_channels))
  else None.

(** [topic_flows]: the list of frames appended by the loop. *)
Definition topic_flows (df : DataFrame) (proportional : bool) : list (list TopicFlow) :=
  if proportional
  then omap (proportional_flows_of (df_filtered df)) topic_columns
  else omap (binary_flows_of (df_filtered df)) topic_columns.

Definition topic_to_broad : gmap string string :=
  foldl (λ m (item : string * list string),
           foldl (λ m topic, <[topic := item.1]> m) m item.2)
        ∅ broad_categories.

(** [pd.concat] followed by the [broad_category] column. *)
Definition all_flows (df : DataFrame) (proportional : bool) : list Flow :=
  (λ f, {| flow_fameswap_category := tf_fameswap_category f;
           flow_count := tf_count f;
           flow_specific_topic := tf_specific_topic f;
           flow_broad_category := topic_to_broad !! tf_specific_topic f |})
    <$> concat (topic_flows df proportional).

(** [groupby] drops the rows whose key is missing. *)
Definition dropna_broad (flows : list Flow) : list (Flow * string) :=
  omap (λ f, (λ b, (f, b)) <$> flow_broad_category f) flows.

Definition broad_flows (df : DataFrame) (proportional : bool) : list GroupedFlow :=
  groupby_sum (merge_sort pair_le)
    (λ fb : Flow * string, (flow_fameswap_category fb.1, fb.2))
    (λ fb, flow_count fb.1)
    (dropna_broad (all_flows df proportional)).

Definition specific_flows (df : DataFrame) (proportional : bool) : list GroupedFlow :=
  groupby_sum (merge_sort pair_le)
    (λ fb : Flow * string, (fb.2, flow_specific_topic fb.1))
    (λ fb, flow_count fb.1)
    (dropna_broad (all_flows df proportional)).

(** ** Ordered category lists *)

Definition fameswap_categories (df : DataFrame) : list string :=
  let available_fameswap := unique (fameswap_category <$> df) in
  filter (λ cat, cat ≠ "Beauty & Makeup")
    (get_ordered_list available_fameswap FAMESWAP_ORDER).

Definition broad_category_list (df : DataFrame) (proportional : bool) : list string :=
  let available_broad := unique ((λ f : GroupedFlow, f.1.2) <$> broad_flows df proportional) in
  get_ordered_list available_broad BROAD_CATEGORY_ORDER.

Definition specific_topics (df : DataFrame) (proportional : bool) : list string :=
  let available_specific := unique ((λ f : GroupedFlow, f.1.2) <$> specific_flows df proportional) in
  get_ordered_list available_specific SPECIFIC_TOPIC_ORDER.

(** ** Layout: labels, colors and positions of the nodes *)

(** The four node lists ([all_labels], [all_colors], [all_x_positions],
    [all_y_positions]) are appended to in lockstep; one [Node] is one
    step of these appends. *)
Record Node : Type := {
  node_label : string;
  node_color : string;
  node_x : Qc;
  node_y : Qc
}.

Definition fameswap_node (fameswap_spacing : Qc) (i : nat) (cat : string) : Node :=
  {| node_label := dict_get FAMESWAP_LABELS cat cat;
     node_color := "#A1B2B9";
     node_x := dec 1 100;
     node_y := (dec 5 100 + Qc_of_nat i * fameswap_spacing)%Qc |}.

Definition broad_node (cat : string) : Node :=
  if decide (cat ∈ invisible_nodes)
  then {| node_label := ""; node_color := transparent;
          node_x := dec 3 10; node_y := dec 1 1000 |}
  else {| node_label := "";
          node_color := dict_get broad_colors cat "#BDC3C7";
          node_x := dec 5 10;
          node_y := if decide (cat ∈ ["Ideological"]) then dec 3 10 else dec 7 10 |}.

Definition specific_node (cat : string) : Node :=
  if decide (cat ∈ invisible_nodes)
  then {| node_label := ""; node_color := transparent;
          node_x := Qc_of_Z 2; node_y := dec 1 10000 |}
  else {| node_label := cat;
          node_color := dict_get topic_colors cat "#BDC3C7";
          node_x := dec 8 10;
          node_y := dict_get specific_y_positions cat (dec 5 10) |}.

(** ** Node indices *)

(** One of the three loops filling [node_mapping]; the state is the
    dictionary and the running [idx]. *)
Definition assign_indices (cats : list string) (st : gmap string nat * nat)
    : gmap string nat * nat :=
  foldl (λ st cat, (<[cat := st.2]> st.1, S st.2)) st cats.

Definition node_mapping_of (l1 l2 l3 : list string) : gmap string nat :=
  (assign_indices l3 (assign_indices l2 (assign_indices l1 (∅, 0)))).1.

Definition node_mapping (df : DataFrame) (proportional : bool) : gmap string nat :=
  node_mapping_of (fameswap_categories df) (broad_category_list df proportional)
    (specific_topics df proportional).

(** ** Sorting the flows by the order of the category lists *)

(** The code of a value of [pd.Categorical(values, categories)]: its
    position in [categories], missing for a value outside of them. *)
Definition categorical_code (categories : list string) (v : string) : option nat :=
  fst <$> list_find (λ c, c = v) categories.

(** Order of the codes; missing values sort last. *)
Definition code_le (a b : option nat) : Prop :=
  match a, b with
  | Some x, Some y => (x ≤ y)%nat
  | _, None => True
  | None, Some _ => False
  end.

Global Instance code_le_dec : RelDecision code_le.
Proof. intros [x|] [y|]; simpl; apply _. Defined.

Definition flow_key_le (source_cats target_cats : list string) (f g : GroupedFlow) : Prop :=
  let sf := categorical_code source_cats f.1.1 in
  let sg := categorical_code source_cats g.1.1 in
  code_le sf sg ∧
  (code_le sg sf →
   code_le (categorical_code target_cats f.1.2) (categorical_code target_cats g.1.2)).

Global Instance flow_key_le_dec s t : RelDecision (flow_key_le s t).
Proof. intros f g. unfold flow_key_le. apply _. Defined.

(** [flows.sort_values(['source_cat', 'target_cat'])] *)
Definition sort_values (source_cats target_cats : list string)
    (flows : list GroupedFlow) : list GroupedFlow :=
  merge_sort (flow_key_le source_cats target_cats) flows.

Definition broad_flows_sorted (df : DataFrame) (proportional : bool) : list GroupedFlow :=
  sort_values (fameswap_categories df) (broad_category_list df proportional)
    (broad_flows df proportional).

Definition specific_flows_sorted (df : DataFrame) (proportional : bool) : list GroupedFlow :=
  sort_values (broad_category_list df proportional) (specific_topics df proportional)
    (specific_flows df proportional).

(** ** Links *)

(** The four link lists ([source], [target], [value], [link_colors])
    are appended to in lockstep; one [Link] is one step. *)
Record Link : Type := {
  link_source : nat;
  link_target : nat;
  link_value : Qc;
  link_color : string
}.

(** Body of the loop over [broad_flows_sorted]. *)
Definition broad_link (node_mapping : gmap string nat) (row : GroupedFlow) : result Link :=
  s ← getitem node_mapping row.1.1;
  t ← getitem node_mapping row.1.2;
  c ← (if decide (row.1.2 ∈ invisible_nodes)
       then Ok transparent
       else hex_to_rgba (dict_get broad_colors row.1.2 "#BDC3C7") "0.6");
  Ok {| link_source := s; link_target := t; link_value := row.2; link_color := c |}.

(** Body of the loop over [specific_flows_sorted]. *)
Definition specific_link (node_mapping : gmap string nat) (row : GroupedFlow) : result Link :=
  s ← getitem node_mapping row.1.1;
  t ← getitem node_mapping row.1.2;
  c ← (if decide (row.1.2 ∈ invisible_nodes ∨ row.1.1 ∈ invisible_nodes)
       then Ok transparent
       else hex_to_rgba (dict_get topic_colors row.1.2 "#BDC3C7") "0.6");
  Ok {| link_source := s; link_target := t; link_value := row.2; link_color := c |}.

(** ** The figure *)

(** The arguments of [go.Sankey] that depend on the data. *)
Record Sankey : Type := {
  fig_label : list string;
  fig_color : list string;
  fig_x : list Qc;
  fig_y : list Qc;
  fig_source : list nat;
  fig_target : list nat;
  fig_value : list Qc;
  fig_link_color : list string
}.

Definition nodes_of (df : DataFrame) (proportional : bool) (fameswap_spacing : Qc)
    : list Node :=
  imap (fameswap_node fameswap_spacing) (fameswap_categories df)
  ++ (broad_node <$> broad_category_list df proportional)
  ++ (specific_node <$> specific_topics df proportional).

Definition mk_figure (nodes : list Node) (links : list Link) : Sankey :=
  {| fig_label := node_label <$> nodes;
     fig_color := node_color <$> nodes;
     fig_x := node_x <$> nodes;
     fig_y := node_y <$> nodes;
     fig_source := link_source <$> links;
     fig_target := link_target <$> links;
     fig_value := link_value <$> links;
     fig_link_color := link_color <$> links |}.

(** [create_sankey_diagram(df, proportional)]; [Ok None] is the
    [return None] of the function. *)
Definition create_sankey_diagram (df : DataFrame) (proportional : bool)
    : result (option Sankey) :=
  if decide (topic_flows df proportional = [])
  then Ok None
  else
    fameswap_spacing ← py_div (dec 9 10) (Qc_of_nat (length (fameswap_categories df)));
    let nodes := nodes_of df proportional fameswap_spacing in
    let node_mapping := node_mapping df proportional in
    links1 ← rmapM (broad_link node_mapping) (broad_flows_sorted df proportional);
    links2 ← rmapM (specific_link node_mapping) (specific_flows_sorted df proportional);
    Ok (Some (mk_figure nodes (links1 ++ links2))).

(** ** Sample tables *)

Definition mk_row (cat : string) (active : list string) : Row :=
  let flag name := if decide (name ∈ active) then 1%Z else 0%Z in
  {| fameswap_category := cat;
     cryptocurrency_content := flag "cryptocurrency_content";
     financial_content := flag "financial_content";
     gambling_content := flag "gambling_content";
     hateful_extremist_content := flag "hateful_extremist_content";
     manosphere_redpill_content := flag "manosphere_redpill_content";
     medical_health_content := flag "medical_health_content";
     news_content := flag "news_content";
     political_content := flag "political_content";
     religious_content := flag "religious_content";
     unclassified := flag "unclassified" |}.

(** ** Quantities used in the statements *)

(** The weight that row [r] adds to the flow of column [topic_col]:
    its value in [df_normalized] in the proportional mode, one per
    active flag in the binary mode. *)
Definition contribution (proportional : bool) (r : Row) (topic_col : Column) : Qc :=
  if proportional then normalized r topic_col
  else if decide (topic_col.2 r = 1%Z) then 1%Qc else 0%Qc.

(** The number of topic columns (the [unclassified] flag included) that
    are set to 1 on row [r]. *)
Definition active_count (r : Row) : nat :=
  length (filter (λ topic_col : Column, topic_col.2 r = 1%Z) topic_columns).

(** A row all of whose topic indicators are 0 or 1. *)
Definition binary_row (r : Row) : Prop :=
  Forall (λ topic_col : Column, topic_col.2 r = 0%Z ∨ topic_col.2 r = 1%Z) topic_columns.

(** The frame that one topic column adds to [topic_flows], empty when
    the loop appends nothing. *)
Definition topic_frame (proportional : bool) (df_filtered : DataFrame)
    (topic_col : Column) : list TopicFlow :=
  default []
    (if proportional then proportional_flows_of df_filtered topic_col
     else binary_flows_of df_filtered topic_col).

(** The category of every node, in the order of the node lists: the
    three category lists one after the other. *)
Definition node_categories (df : DataFrame) (proportional : bool) : list string :=
  fameswap_categories df ++ broad_category_list df proportional
    ++ specific_topics df proportional.

(** The level (1, 2 or 3) of the node at position [i] of the node lists,
    that is the loop that appended it. *)
Definition node_level (df : DataFrame) (proportional : bool) (i : nat) : nat :=
  if decide (i < length (fameswap_categories df)) then 1
  else if decide (i < length (fameswap_categories df)
                        + length (broad_category_list df proportional)) then 2
  else 3.

(** The node at position [i] is one of the invisible nodes: a node of
    level 2 or 3 whose category is in [invisible_nodes]. *)
Definition invisible_node (df : DataFrame) (proportional : bool) (i : nat) : Prop :=
  ∃ cat, node_categories df proportional !! i = Some cat ∧
         (2 ≤ node_level df proportional i)%nat ∧ cat ∈ invisible_nodes.

(** The three category lists share no label. *)
Definition levels_disjoint (df : DataFrame) (proportional : bool) : Prop :=
  fameswap_categories df ## broad_category_list df proportional ∧
  fameswap_categories df ## specific_topics df proportional ∧
  broad_category_list df proportional ## specific_topics df proportional.

(** The topic columns other than the [unclassified] flag. *)
Definition explicit_columns : list Column :=
  filter (λ topic_col : Column, topic_col.1 ≠ "unclassified") topic_columns.

Definition unclassified_column : Column := ("unclassified", unclassified).

(** The weight of the flow from the primary category [cat] to the
    specific topic [topic] in a frame such as [all_flows]: the [count]
    of the rows with these two keys ([all_flows] has at most one, lemma
    [flow_weight_elem]), 0 when the frame has none. *)
Definition flow_weight (flows : list Flow) (cat topic : string) : Qc :=
  sum_Qc (flow_count <$>
            filter (λ f, flow_fameswap_category f = cat ∧ flow_specific_topic f = topic)
              flows).

(** The table of the example scenario: three entities of one primary
    category, two with two topics each and one without any topic. *)
Definition df_example : DataFrame := [
  mk_row "A" ["political_content"; "financial_content"];
  mk_row "A" ["political_content"; "financial_content"];
  mk_row "A" ["unclassified"] ].

(** A table whose rows have no flag set at all. *)
Definition df_no_flags : DataFrame := [ mk_row "A" [] ].

(** A table with a primary category that is named like the invisible
    level-2 node. *)
Definition df_collision : DataFrame := [
  mk_row "Other" ["political_content"];
  mk_row "A" ["unclassified"] ].

(** ** The summary computed below the main block *)

Definition ideological_columns : list Column := [
  ("political_content", political_content);
  ("news_content", news_content);
  ("manosphere_redpill_content", manosphere_redpill_content);
  ("medical_health_content", medical_health_content) ].

Definition financial_columns : list Column := [
  ("financial_content", financial_content);
  ("gambling_content", gambling_content);
  ("cryptocurrency_content", cryptocurrency_content) ].

(** [df[cols].any(axis=1)]: per row, whether some column is non-zero. *)
Definition any_axis1 (cols : list Column) (df : DataFrame) : list bool :=
  (λ r, bool_decide (Exists (λ c : Column, c.2 r ≠ 0%Z) cols)) <$> df.

(** [s.sum()] and [s.mean()] of a boolean Series; the mean of an empty
    Series is NaN, modelled by [None]. *)
Definition series_sum (s : list bool) : nat := length (filter (λ b, b = true) s).

Definition series_mean (s : list bool) : option Qc :=
  if decide (s = []) then None
  else Some (Qc_of_nat (series_sum s) / Qc_of_nat (length s))%Qc.

(** [df[mask]]: the rows whose entry of the mask is true. *)
Definition mask_rows (df : DataFrame) (mask : list bool) : DataFrame :=
  fst <$> filter (λ rb : Row * bool, rb.2 = true) (zip df mask).

(** The values that the summary computes. *)
Record Summary : Type := {
  ideological_count : nat;
  financial_count : nat;
  neither_count : nat;
  neither_percentage : option Qc;
  total_accounts : nat;
  subset_size : nat;
  ideological_pct_within : option Qc;
  financial_pct_within : option Qc
}.

Definition summary (df : DataFrame) : Summary :=
  let has_ideological := any_axis1 ideological_columns df in
  let has_financial := any_axis1 financial_columns df in
  let has_either := zip_with orb has_ideological has_financial in
  let has_neither := negb <$> has_either in
  let channels_with_either := zip_with orb has_ideological has_financial in
  let subset_df := mask_rows df channels_with_either in
  {| ideological_count := series_sum has_ideological;
     financial_count := series_sum has_financial;
     neither_count := series_sum has_neither;
     neither_percentage := (λ m, m * Qc_of_Z 100)%Qc <$> series_mean has_neither;
     total_accounts := length df;
     subset_size := length subset_df;
     ideological_pct_within :=
       (λ m, m * Qc_of_Z 100)%Qc <$> series_mean (any_axis1 ideological_columns subset_df);
     financial_pct_within :=
       (λ m, m * Qc_of_Z 100)%Qc <$> series_mean (any_axis1 financial_columns subset_df) |}.

(** * Properties *)

(** ** Lists: [unique] and sums *)

Section unique.
Context {A : Type} `{EqDecision A}.
Implicit Types l : list A.

Lemma elem_of_unique l x : x ∈ unique l ↔ x ∈ l.
Proof.
  induction l as [|y l IH]; simpl; [done|].
  rewrite !elem_of_cons, list_elem_of_filter, IH.
  destruct (decide (x = y)); naive_solver.
Qed.

Lemma NoDup_unique l : NoDup (unique l).
Proof.
  induction l as [|y l IH]; simpl; [constructor|].
  constructor; [|by apply NoDup_filter].
  rewrite list_elem_of_filter. naive_solver.
Qed.

Lemma unique_sublist l : unique l `sublist_of` l.
Proof.
  induction l as [|y l IH]; simpl; [constructor|].
  apply sublist_skip. etrans; [apply sublist_filter|done].
Qed.

Lemma unique_nil_inv l : unique l = [] → l = [].
Proof. by destruct l. Qed.
End unique.

(** ** The string order *)

Lemma sorted_Permutation xs : sorted xs ≡ₚ xs.
Proof. apply merge_sort_Permutation. Qed.

Lemma sorted_StronglySorted xs : StronglySorted String.le (sorted xs).
Proof. apply StronglySorted_merge_sort; apply _. Qed.

Lemma elem_of_sorted xs x : x ∈ sorted xs ↔ x ∈ xs.
Proof. by rewrite sorted_Permutation. Qed.

(** Two duplicate-free sorted lists with the same elements are equal. *)
Lemma sorted_ext (l1 l2 : list string) :
  NoDup l1 → NoDup l2 → (∀ x, x ∈ l1 ↔ x ∈ l2) →
  StronglySorted String.le l1 → StronglySorted String.le l2 → l1 = l2.
Proof.
  intros Hn1 Hn2 Hel Hs1 Hs2.
  apply (StronglySorted_unique String.le); [done..|].
  by apply NoDup_Permutation.
Qed.

(** ** [get_ordered_list] *)

Lemma order_loop_spec order_list st :
  order_loop order_list st =
    (st.1 ++ filter (λ x, x ∈ st.2) (unique order_list),
     st.2 ∖ list_to_set order_list).
Proof.
  revert st. induction order_list as [|item rest IH]; intros [ordered remaining]; simpl.
  { rewrite app_nil_r. f_equal. set_solver. }
  destruct (decide (item ∈ remaining)) as [Hin|Hin]; rewrite IH; simpl.
  - rewrite filter_cons_True by done. rewrite <-app_assoc. simpl.
    f_equal; [|set_solver].
    do 2 f_equal. rewrite list_filter_filter. apply list_filter_iff.
    intros x. set_solver.
  - rewrite filter_cons_False by done.
    f_equal; [|set_solver].
    f_equal. rewrite list_filter_filter. apply list_filter_iff.
    intros x. set_solver.
Qed.

Lemma get_ordered_list_spec available_items order_list :
  get_ordered_list available_items order_list =
    filter (λ x, x ∈ (list_to_set available_items : gset string)) (unique order_list)
    ++ sorted (elements ((list_to_set available_items : gset string)
                           ∖ list_to_set order_list)).
Proof. unfold get_ordered_list. by rewrite order_loop_spec. Qed.

Lemma elem_of_get_ordered_list available_items order_list x :
  x ∈ get_ordered_list available_items order_list ↔ x ∈ available_items.
Proof.
  rewrite get_ordered_list_spec, elem_of_app, list_elem_of_filter, elem_of_unique,
    elem_of_sorted, elem_of_elements, elem_of_difference, !elem_of_list_to_set.
  destruct (decide (x ∈ order_list)); naive_solver.
Qed.

Lemma NoDup_get_ordered_list available_items order_list :
  NoDup (get_ordered_list available_items order_list).
Proof.
  rewrite get_ordered_list_spec. apply NoDup_app. split_and!.
  - apply NoDup_filter, NoDup_unique.
  - intros x. rewrite list_elem_of_filter, elem_of_unique, elem_of_sorted,
      elem_of_elements. set_solver.
  - rewrite sorted_Permutation. apply NoDup_elements.
Qed.

(** C4. [get_ordered_list] returns a permutation of exactly the set of
    observed labels: first the observed labels that occur in the
    canonical list, in the relative order of the canonical list, then
    the remaining observed labels in lexicographic order; and the result
    depends only on the set of observed labels, not on the order (or
    repetitions) in which they are enumerated. *)
Theorem get_ordered_list_order (available_items order_list : list string) :
  let S : gset string := list_to_set available_items in
  let out := get_ordered_list available_items order_list in
  out ≡ₚ elements S ∧
  (∃ canonical rest,
      out = canonical ++ rest ∧
      (∀ x, x ∈ canonical ↔ x ∈ S ∧ x ∈ order_list) ∧
      canonical `sublist_of` order_list ∧
      (∀ x, x ∈ rest ↔ x ∈ S ∧ x ∉ order_list) ∧
      StronglySorted String.le rest) ∧
  (∀ available_items',
      (∀ x, x ∈ available_items' ↔ x ∈ available_items) →
      get_ordered_list available_items' order_list = out).
Proof.
  intros S out. split_and!.
  - apply NoDup_Permutation.
    + apply NoDup_get_ordered_list.
    + apply NoDup_elements.
    + intros x. unfold out, S.
      by rewrite elem_of_get_ordered_list, elem_of_elements, elem_of_list_to_set.
  - eexists _, _. split; [apply get_ordered_list_spec|]. fold S. split_and!.
    + intros x. rewrite list_elem_of_filter, elem_of_unique. done.
    + etrans; [apply sublist_filter|apply unique_sublist].
    + intros x. rewrite elem_of_sorted, elem_of_elements. set_solver.
    + apply sorted_StronglySorted.
  - intros available_items' Hel. unfold out.
    rewrite !get_ordered_list_spec.
    assert ((list_to_set available_items' : gset string) = list_to_set available_items)
      as -> by set_solver.
    done.
Qed.

(** ** Sums *)

Lemma sum_Qc_cons x l : sum_Qc (x :: l) = (x + sum_Qc l)%Qc.
Proof. done. Qed.

Lemma sum_Qc_app l1 l2 : sum_Qc (l1 ++ l2) = (sum_Qc l1 + sum_Qc l2)%Qc.
Proof.
  induction l1 as [|x l1 IH]; simpl; [by rewrite Qcplus_0_l|].
  rewrite IH. ring.
Qed.

Global Instance sum_Qc_Permutation : Proper ((≡ₚ) ==> (=)) sum_Qc.
Proof.
  induction 1 as [|x l1 l2 _ IH|x y l|l1 l2 l3 _ IH1 _ IH2]; simpl;
    [done|by rewrite IH|ring|by rewrite IH1].
Qed.

Lemma sum_Qc_nonneg l : Forall (λ x, (0 ≤ x)%Qc) l → (0 ≤ sum_Qc l)%Qc.
Proof.
  induction 1 as [|x l Hx _ IH]; simpl; [done|].
  replace 0%Qc with (0 + 0)%Qc by ring. by apply Qcplus_le_compat.
Qed.

Lemma sum_Qc_pos l : l ≠ [] → Forall (λ x, (0 < x)%Qc) l → (0 < sum_Qc l)%Qc.
Proof.
  intros Hne Hall. destruct Hall as [|x l Hx Hl]; [done|]. simpl.
  apply Qclt_le_trans with (x + 0)%Qc; [by rewrite Qcplus_0_r|].
  apply Qcplus_le_compat; [done|].
  apply sum_Qc_nonneg. eapply Forall_impl; [done|]. intros y. apply Qclt_le_weak.
Qed.

Lemma sum_Qc_const {A} (l : list A) (c : Qc) :
  sum_Qc ((λ _, c) <$> l) = (Qc_of_nat (length l) * c)%Qc.
Proof.
  unfold Qc_of_nat. induction l as [|x l IH].
  { change (0 = Qc_of_Z 0 * c)%Qc. rewrite Z2Qc_inj_0. ring. }
  rewrite fmap_cons, length_cons, Nat2Z.inj_succ, <-Z.add_1_r, Z2Qc_inj_add, Z2Qc_inj_1.
  rewrite sum_Qc_cons, IH. ring.
Qed.

Lemma sum_Qc_zero {A} (f : A → Qc) (l : list A) :
  (∀ x, x ∈ l → f x = 0%Qc) → sum_Qc (f <$> l) = 0%Qc.
Proof.
  induction l as [|x l IH]; intros Hf; [done|].
  rewrite fmap_cons, sum_Qc_cons, Hf, IH by set_solver. ring.
Qed.

Lemma Qc_of_nat_0 : Qc_of_nat 0 = 0%Qc.
Proof. apply Z2Qc_inj_0. Qed.

Lemma Qc_of_nat_1 : Qc_of_nat 1 = 1%Qc.
Proof. apply Z2Qc_inj_1. Qed.

Lemma Qc_of_nat_add n m : Qc_of_nat (n + m) = (Qc_of_nat n + Qc_of_nat m)%Qc.
Proof. unfold Qc_of_nat. by rewrite Nat2Z.inj_add, Z2Qc_inj_add. Qed.

Lemma Qc_of_nat_pos n : 0 < n → (0 < Qc_of_nat n)%Qc.
Proof.
  intros Hn. unfold Qc_of_nat. rewrite <-Z2Qc_inj_0.
  apply (proj1 (Z2Qc_inj_lt 0 (Z.of_nat n))). lia.
Qed.

Lemma sum_Qc_fmap_ext {A} (f g : A → Qc) (l : list A) :
  (∀ x, x ∈ l → f x = g x) → sum_Qc (f <$> l) = sum_Qc (g <$> l).
Proof.
  intros Hfg. f_equal. apply list_fmap_ext. intros i x Hx.
  apply Hfg. by eapply list_elem_of_lookup_2.
Qed.

Section sum_filter.
Context {A : Type} (f : A → Qc).
Implicit Types (P Q : A → Prop) (rows : list A).

Lemma sum_filter_ext P Q `{!∀ x, Decision (P x), !∀ x, Decision (Q x)} rows :
  (∀ r, r ∈ rows → P r ↔ Q r) →
  sum_Qc (f <$> filter P rows) = sum_Qc (f <$> filter Q rows).
Proof.
  induction rows as [|r rows IH]; intros HPQ; [done|].
  rewrite !filter_cons.
  destruct (decide (P r)) as [HP|HP], (decide (Q r)) as [HQ|HQ];
    rewrite ?fmap_cons, ?sum_Qc_cons;
    try (rewrite IH by set_solver; done);
    exfalso; specialize (HPQ r); set_solver.
Qed.

Lemma sum_filter_False P `{!∀ x, Decision (P x)} rows :
  (∀ r, r ∈ rows → ¬P r) → sum_Qc (f <$> filter P rows) = 0%Qc.
Proof.
  induction rows as [|r rows IH]; intros HP; [done|].
  rewrite filter_cons_False by set_solver. apply IH. set_solver.
Qed.

(** Splitting a sum over two disjoint conditions. *)
Lemma sum_filter_or P Q `{!∀ x, Decision (P x), !∀ x, Decision (Q x)} rows :
  (∀ r, r ∈ rows → P r → Q r → False) →
  sum_Qc (f <$> filter (λ r, P r ∨ Q r) rows) =
    (sum_Qc (f <$> filter P rows) + sum_Qc (f <$> filter Q rows))%Qc.
Proof.
  induction rows as [|r rows IH]; intros Hdisj; [simpl; ring|].
  rewrite !filter_cons.
  assert (Hr := Hdisj r).
  destruct (decide (P r)) as [HP|HP], (decide (Q r)) as [HQ|HQ];
    [exfalso; set_solver|..].
  - rewrite decide_True by auto.
    rewrite !fmap_cons, !sum_Qc_cons, IH by set_solver. ring.
  - rewrite decide_True by auto.
    rewrite !fmap_cons, !sum_Qc_cons, IH by set_solver. ring.
  - rewrite decide_False by tauto. apply IH. set_solver.
Qed.

(** Terms that are zero may be left out of a sum. *)
Lemma sum_filter_nonzero P Q `{!∀ x, Decision (P x), !∀ x, Decision (Q x)} rows :
  (∀ r, r ∈ rows → P r → ¬Q r → f r = 0%Qc) →
  sum_Qc (f <$> filter (λ r, P r ∧ Q r) rows) = sum_Qc (f <$> filter P rows).
Proof.
  induction rows as [|r rows IH]; intros Hz; [done|].
  rewrite !filter_cons. assert (Hr := Hz r).
  destruct (decide (P r)) as [HP|HP], (decide (Q r)) as [HQ|HQ].
  - rewrite decide_True by done.
    rewrite !fmap_cons, !sum_Qc_cons, IH by set_solver. done.
  - rewrite decide_False by tauto.
    rewrite !fmap_cons, !sum_Qc_cons, IH, Hr by set_solver. ring.
  - rewrite decide_False by tauto. apply IH. set_solver.
  - rewrite decide_False by tauto. apply IH. set_solver.
Qed.
End sum_filter.

(** ** [groupby] *)

Lemma filter_fmap {A B} (f : A → B) (P : B → Prop) `{!∀ y, Decision (P y)} (l : list A) :
  filter P (f <$> l) = f <$> filter (λ x, P (f x)) l.
Proof.
  induction l as [|x l IH]; [done|].
  rewrite fmap_cons, !filter_cons, IH. by destruct (decide (P (f x))).
Qed.

Section groupby.
Context {A K : Type} `{EqDecision K}.
Context (sort_keys : list K → list K) (Hsort : ∀ l, sort_keys l ≡ₚ l).
Context (key : A → K).
Implicit Types (rows : list A) (val : A → Qc) (P : K → Prop).

Lemma groupby_sum_unfold val rows :
  groupby_sum sort_keys key val rows =
    (λ k, (k, sum_Qc (val <$> filter (λ r, key r = k) rows)))
      <$> sort_keys (unique (key <$> rows)).
Proof. unfold groupby_sum, groupby. by rewrite <-list_fmap_compose. Qed.

Lemma groupby_size_sum rows :
  groupby_size sort_keys key rows = groupby_sum sort_keys key (λ _, 1%Qc) rows.
Proof.
  unfold groupby_size, groupby_sum. apply list_fmap_ext. intros _ g _.
  f_equal. rewrite sum_Qc_const. ring.
Qed.

Lemma elem_of_groupby_sum val rows g :
  g ∈ groupby_sum sort_keys key val rows ↔
    g.1 ∈ key <$> rows ∧
    g.2 = sum_Qc (val <$> filter (λ r, key r = g.1) rows).
Proof.
  rewrite groupby_sum_unfold, list_elem_of_fmap. setoid_rewrite Hsort.
  setoid_rewrite elem_of_unique. destruct g as [k v]; simpl. naive_solver.
Qed.

Lemma NoDup_groupby_sum_keys val rows :
  NoDup (fst <$> groupby_sum sort_keys key val rows).
Proof.
  rewrite groupby_sum_unfold, <-list_fmap_compose.
  rewrite (list_fmap_ext _ id (sort_keys (unique (key <$> rows))))
    by (by intros).
  rewrite list_fmap_id, Hsort. apply NoDup_unique.
Qed.

Lemma groupby_sum_ext val1 val2 rows :
  (∀ r, r ∈ rows → val1 r = val2 r) →
  groupby_sum sort_keys key val1 rows = groupby_sum sort_keys key val2 rows.
Proof.
  intros Hval. rewrite !groupby_sum_unfold. apply list_fmap_ext. intros _ k _.
  f_equal. apply sum_Qc_fmap_ext. intros r [_ Hr]%list_elem_of_filter. auto.
Qed.

(** Every group has a row, so a sum of positive values is positive. *)
Lemma groupby_sum_pos val rows g :
  (∀ r, r ∈ rows → (0 < val r)%Qc) →
  g ∈ groupby_sum sort_keys key val rows → (0 < g.2)%Qc.
Proof.
  intros Hpos [Hk ->]%elem_of_groupby_sum.
  apply list_elem_of_fmap in Hk as (r & Hr & Hin).
  apply sum_Qc_pos.
  - intros Hnil%fmap_nil_inv.
    eapply (filter_nil_not_elem_of _ _ r); [done| |done]. done.
  - apply Forall_fmap, Forall_forall. intros r' [_ ?]%list_elem_of_filter.
    by apply Hpos.
Qed.

Lemma sum_groups val rows P `{!∀ k, Decision (P k)} (ks : list K) :
  NoDup ks →
  sum_Qc ((λ k, sum_Qc (val <$> filter (λ r, key r = k) rows)) <$> filter P ks) =
    sum_Qc (val <$> filter (λ r, P (key r) ∧ key r ∈ ks) rows).
Proof.
  induction 1 as [|k ks Hk Hnd IH].
  { symmetry. apply sum_filter_False. intros r _ [_ Hr]. by apply elem_of_nil in Hr. }
  rewrite filter_cons. destruct (decide (P k)) as [HP|HP].
  - rewrite fmap_cons, sum_Qc_cons, IH.
    rewrite <-(sum_filter_or val (λ r, key r = k) (λ r, P (key r) ∧ key r ∈ ks))
      by (intros r _ -> [_ ?]; done).
    apply sum_filter_ext. intros r _. rewrite elem_of_cons. naive_solver.
  - rewrite IH. apply sum_filter_ext. intros r _. rewrite elem_of_cons. naive_solver.
Qed.

(** Conservation: the sums of the groups selected by their key add up
    to the sum over the rows with such a key. *)
Lemma groupby_sum_conservation val rows P `{!∀ k, Decision (P k)} :
  sum_Qc (snd <$> filter (λ g, P g.1) (groupby_sum sort_keys key val rows)) =
    sum_Qc (val <$> filter (λ r, P (key r)) rows).
Proof.
  rewrite groupby_sum_unfold, filter_fmap, <-list_fmap_compose. simpl.
  rewrite (list_fmap_ext _ (λ k, sum_Qc (val <$> filter (λ r, key r = k) rows))
             (filter P (sort_keys (unique (key <$> rows))))) by (by intros).
  rewrite (Hsort (unique (key <$> rows))).
  rewrite sum_groups by apply NoDup_unique.
  apply sum_filter_ext. intros r Hr. rewrite elem_of_unique.
  split; [tauto|]. intros HP. split; [done|]. by apply list_elem_of_fmap_2.
Qed.
End groupby.

(** ** The frames of [topic_flows] *)

Lemma sum_Qc_concat (ls : list (list Qc)) :
  sum_Qc (concat ls) = sum_Qc (sum_Qc <$> ls).
Proof.
  induction ls as [|l ls IH]; [done|].
  simpl concat. rewrite sum_Qc_app, IH. done.
Qed.

Lemma elem_of_concat {A} (ls : list (list A)) (x : A) :
  x ∈ concat ls ↔ ∃ l, l ∈ ls ∧ x ∈ l.
Proof.
  rewrite list_elem_of_In, in_concat. setoid_rewrite list_elem_of_In. done.
Qed.

Lemma concat_omap_default {A B} (f : A → option (list B)) (l : list A) :
  concat (omap f l) = concat ((λ x, default [] (f x)) <$> l).
Proof.
  induction l as [|x l IH]; [done|]. simpl. destruct (f x); simpl; [f_equal|]; exact IH.
Qed.

Lemma topic_flows_concat df proportional :
  concat (topic_flows df proportional) =
    concat (topic_frame proportional (df_filtered df) <$> topic_columns).
Proof.
  unfold topic_flows, topic_frame. destruct proportional; apply concat_omap_default.
Qed.

Lemma contribution_nonneg proportional r topic_col :
  (0 ≤ contribution proportional r topic_col)%Qc.
Proof.
  unfold contribution, normalized. destruct proportional; repeat case_decide; try done.
  apply Qclt_le_weak. unfold Qcdiv. rewrite Qcmult_1_l.
  apply Qcinv_pos. rewrite <-Z2Qc_inj_0.
  apply (proj1 (Z2Qc_inj_lt 0 (topic_sums r))). tauto.
Qed.

Lemma contribution_false_pos r topic_col :
  (0 < contribution false r topic_col)%Qc ↔ topic_col.2 r = 1%Z.
Proof. unfold contribution. case_decide; split; done. Qed.

(** The rows selected for a column are those that contribute to it,
    and the frame sums their contributions per primary category. *)
Lemma topic_frame_spec proportional df' topic_col :
  topic_frame proportional df' topic_col =
    mk_topic_flows topic_col
      (groupby_sum sorted fameswap_category (λ r, contribution proportional r topic_col)
         (filter (λ r, (0 < contribution proportional r topic_col)%Qc) df')).
Proof.
  unfold topic_frame. destruct proportional.
  - unfold proportional_flows_of. simpl. case_decide as Hlen; [done|].
    destruct (filter _ df') eqn:Hnil; [|simpl in Hlen; lia].
    reflexivity.
  - unfold binary_flows_of. simpl.
    rewrite (list_filter_iff (λ r, (0 < contribution false r topic_col)%Qc)
               (λ r, topic_col.2 r = 1%Z)) by (intros; apply contribution_false_pos).
    assert (groupby_size sorted fameswap_category (filter (λ r, topic_col.2 r = 1%Z) df')
            = groupby_sum sorted fameswap_category (λ r, contribution false r topic_col)
                (filter (λ r, topic_col.2 r = 1%Z) df')) as Heq.
    { rewrite groupby_size_sum. apply groupby_sum_ext.
      intros r [Hr _]%list_elem_of_filter. unfold contribution. by rewrite decide_True. }
    case_decide as Hlen; simpl; [by rewrite Heq|].
    destruct (filter _ df') eqn:Hnil; [|simpl in Hlen; lia].
    reflexivity.
Qed.

Lemma elem_of_topic_frame proportional df' topic_col f :
  f ∈ topic_frame proportional df' topic_col →
  tf_specific_topic f = topic_label topic_col ∧
  (tf_fameswap_category f, tf_count f) ∈
    groupby_sum sorted fameswap_category (λ r, contribution proportional r topic_col)
      (filter (λ r, (0 < contribution proportional r topic_col)%Qc) df').
Proof.
  rewrite topic_frame_spec. unfold mk_topic_flows.
  intros ([k v] & -> & Hg)%list_elem_of_fmap. done.
Qed.

Lemma topic_frame_sum proportional df' topic_col (P : string → Prop)
    `{!∀ c, Decision (P c)} :
  sum_Qc (tf_count <$> filter (λ f, P (tf_fameswap_category f))
                         (topic_frame proportional df' topic_col)) =
    sum_Qc ((λ r, contribution proportional r topic_col)
              <$> filter (λ r, P (fameswap_category r)) df').
Proof.
  rewrite topic_frame_spec. unfold mk_topic_flows.
  rewrite filter_fmap, <-list_fmap_compose. simpl.
  rewrite (list_fmap_ext _ snd (filter (λ g : string * Qc, P g.1) _)) by (by intros).
  rewrite (groupby_sum_conservation sorted sorted_Permutation).
  rewrite list_filter_filter. apply sum_filter_nonzero.
  intros r _ _ Hr. apply Qcle_antisym; [|apply contribution_nonneg].
  by apply Qcnot_lt_le.
Qed.

(** ** The flow sets *)

Lemma TOPIC_LABELS_total :
  Forall (λ topic_col : Column, is_Some (TOPIC_LABELS !! topic_col.1)) topic_columns.
Proof. repeat constructor; vm_compute; eauto. Qed.

Lemma topic_to_broad_total :
  Forall (λ topic_col, is_Some (topic_to_broad !! topic_label topic_col)) topic_columns.
Proof. repeat constructor; vm_compute; eauto. Qed.

Lemma elem_of_all_flows df proportional f :
  f ∈ all_flows df proportional →
  ∃ topic_col tf,
    topic_col ∈ topic_columns ∧
    tf ∈ topic_frame proportional (df_filtered df) topic_col ∧
    flow_fameswap_category f = tf_fameswap_category tf ∧
    flow_count f = tf_count tf ∧
    flow_specific_topic f = topic_label topic_col ∧
    flow_broad_category f = topic_to_broad !! topic_label topic_col.
Proof.
  unfold all_flows. rewrite topic_flows_concat.
  intros (tf & -> & Htf)%list_elem_of_fmap. simpl.
  apply elem_of_concat in Htf as (frame & Hframe & Htf).
  apply list_elem_of_fmap in Hframe as (topic_col & -> & Hcol).
  exists topic_col, tf. destruct (elem_of_topic_frame _ _ _ _ Htf) as [-> _]. done.
Qed.

Lemma all_flows_broad_Some df proportional f :
  f ∈ all_flows df proportional → is_Some (flow_broad_category f).
Proof.
  intros (topic_col & tf & Hcol & _ & _ & _ & _ & ->)%elem_of_all_flows.
  revert topic_col Hcol. apply Forall_forall, topic_to_broad_total.
Qed.

Lemma dropna_broad_fst flows :
  (∀ f, f ∈ flows → is_Some (flow_broad_category f)) →
  fst <$> dropna_broad flows = flows.
Proof.
  unfold dropna_broad. induction flows as [|f flows IH]; intros Hsome; [done|].
  destruct (Hsome f) as [b Hb]; [set_solver|].
  simpl. rewrite Hb. simpl. f_equal. apply IH. set_solver.
Qed.

Lemma sum_Qc_swap {A B} (F : A → B → Qc) (la : list A) (lb : list B) :
  sum_Qc ((λ a, sum_Qc (F a <$> lb)) <$> la) =
    sum_Qc ((λ b, sum_Qc ((λ a, F a b) <$> la)) <$> lb).
Proof.
  induction la as [|a la IH].
  { simpl. symmetry. apply sum_Qc_zero. done. }
  rewrite fmap_cons, sum_Qc_cons, IH. clear IH.
  induction lb as [|b lb IH]; [simpl; ring|].
  rewrite !fmap_cons, !sum_Qc_cons, <-IH. ring.
Qed.

Lemma concat_frames_sum proportional df' (cols : list Column)
    (Q : string → string → Prop) `{!∀ c t, Decision (Q c t)} :
  sum_Qc (tf_count <$>
            filter (λ f, Q (tf_fameswap_category f) (tf_specific_topic f))
              (concat (topic_frame proportional df' <$> cols))) =
    sum_Qc ((λ topic_col,
               sum_Qc ((λ r, contribution proportional r topic_col)
                         <$> filter (λ r, Q (fameswap_category r) (topic_label topic_col))
                               df'))
              <$> cols).
Proof.
  induction cols as [|topic_col cols IH]; [reflexivity|].
  rewrite !fmap_cons, sum_Qc_cons, <-IH. simpl concat.
  rewrite filter_app, fmap_app, sum_Qc_app. f_equal.
  etrans; [|exact (topic_frame_sum proportional df' topic_col
                     (λ c, Q c (topic_label topic_col)))].
  apply sum_filter_ext. intros tf Htf.
  by destruct (elem_of_topic_frame _ _ _ _ Htf) as [-> _].
Qed.

(** The total weight of the flows selected by a condition on their
    primary category and specific topic is the total contribution of the
    rows and columns satisfying it. *)
Lemma all_flows_sum df proportional (Q : string → string → Prop)
    `{!∀ c t, Decision (Q c t)} :
  sum_Qc (flow_count <$>
            filter (λ f, Q (flow_fameswap_category f) (flow_specific_topic f))
              (all_flows df proportional)) =
    sum_Qc ((λ topic_col,
               sum_Qc ((λ r, contribution proportional r topic_col)
                         <$> filter (λ r, Q (fameswap_category r) (topic_label topic_col))
                               (df_filtered df)))
              <$> topic_columns).
Proof.
  unfold all_flows. rewrite topic_flows_concat, filter_fmap, <-list_fmap_compose.
  apply (concat_frames_sum proportional (df_filtered df) topic_columns Q).
Qed.

(** The total weight of the level-1→level-2 flows that leave the primary
    categories selected by [P] is the total contribution of the rows of
    these categories. *)
Lemma broad_flows_sum df proportional (P : string → Prop) `{!∀ c, Decision (P c)} :
  sum_Qc (snd <$> filter (λ g : GroupedFlow, P g.1.1) (broad_flows df proportional)) =
    sum_Qc ((λ r, sum_Qc (contribution proportional r <$> topic_columns))
              <$> filter (λ r, P (fameswap_category r)) (df_filtered df)).
Proof.
  unfold broad_flows.
  etrans; [exact (groupby_sum_conservation (merge_sort pair_le)
                    (merge_sort_Permutation _) _ _ _ (λ k : string * string, P k.1))|].
  transitivity (sum_Qc (flow_count <$> filter (λ f, P (flow_fameswap_category f))
                                         (all_flows df proportional))).
  - rewrite <-(dropna_broad_fst (all_flows df proportional))
      at 2 by apply all_flows_broad_Some.
    by rewrite filter_fmap, <-list_fmap_compose.
  - rewrite sum_Qc_swap. exact (all_flows_sum df proportional (λ c _, P c)).
Qed.

Lemma broad_flows_sorted_Permutation df proportional :
  broad_flows_sorted df proportional ≡ₚ broad_flows df proportional.
Proof. apply merge_sort_Permutation. Qed.

Lemma specific_flows_sorted_Permutation df proportional :
  specific_flows_sorted df proportional ≡ₚ specific_flows df proportional.
Proof. apply merge_sort_Permutation. Qed.

Lemma contribution_binary_sum r (cols : list Column) :
  sum_Qc (contribution false r <$> cols) =
    Qc_of_nat (length (filter (λ topic_col : Column, topic_col.2 r = 1%Z) cols)).
Proof.
  induction cols as [|topic_col cols IH]; [symmetry; apply Qc_of_nat_0|].
  rewrite fmap_cons, sum_Qc_cons, IH, filter_cons. unfold contribution.
  case_decide; [|ring].
  rewrite length_cons. change (S ?n) with (1 + n). rewrite Qc_of_nat_add. done.
Qed.

Lemma sum_Qc_of_nat {A} (f : A → nat) (l : list A) :
  sum_Qc ((λ x, Qc_of_nat (f x)) <$> l) = Qc_of_nat (sum_list (f <$> l)).
Proof.
  induction l as [|x l IH]; [symmetry; apply Qc_of_nat_0|].
  rewrite !fmap_cons, sum_Qc_cons, IH. simpl sum_list. by rewrite Qc_of_nat_add.
Qed.

(** C1 (as the code has it). In the binary mode, the weights of the
    level-1→level-2 edges that leave a primary category add up to the
    number of topic flags set on the rows of that category after the
    exclusion, the [unclassified] flag included: a row is counted once
    per active flag, not once per entity. *)
Theorem binary_outgoing_weight (df : DataFrame) (cat : string) :
  sum_Qc (snd <$> filter (λ g : GroupedFlow, g.1.1 = cat) (broad_flows_sorted df false)) =
    Qc_of_nat (sum_list (active_count <$>
                 filter (λ r, fameswap_category r = cat) (df_filtered df))).
Proof.
  rewrite broad_flows_sorted_Permutation.
  etrans; [exact (broad_flows_sum df false (λ c, c = cat))|].
  rewrite <-sum_Qc_of_nat. apply sum_Qc_fmap_ext. intros r _.
  apply contribution_binary_sum.
Qed.

(** ** The error monad *)

Lemma rbind_Ok {A B} (m : result A) (k : A → result B) (b : B) :
  m ≫= k = Ok b ↔ ∃ a, m = Ok a ∧ k a = Ok b.
Proof. destruct m as [a|e]; simpl; naive_solver. Qed.

Lemma rmapM_Ok {A B} (f : A → result B) (l : list A) (l' : list B) :
  rmapM f l = Ok l' ↔ Forall2 (λ x y, f x = Ok y) l l'.
Proof.
  revert l'. induction l as [|x l IH]; intros l'; simpl.
  { split; [intros [= <-]; constructor|by inv 1]. }
  rewrite rbind_Ok. setoid_rewrite rbind_Ok. setoid_rewrite IH. split.
  - intros (y & Hy & l'' & Hl & [= <-]). by constructor.
  - inv 1. eauto 10.
Qed.

Lemma rmapM_is_Ok {A B} (f : A → result B) (l : list A) :
  Forall (λ x, ∃ y, f x = Ok y) l → ∃ l', rmapM f l = Ok l'.
Proof.
  induction 1 as [|x l [y Hy] _ [l' IH]]; simpl; [by eexists|].
  rewrite Hy. simpl. rewrite IH. simpl. by eexists.
Qed.

Lemma getitem_Ok {V} (d : gmap string V) k v : getitem d k = Ok v ↔ d !! k = Some v.
Proof. unfold getitem. destruct (d !! k); naive_solver. Qed.

(** ** The structure of a built figure *)

Lemma broad_link_Ok nm row lk :
  broad_link nm row = Ok lk →
  nm !! row.1.1 = Some (link_source lk) ∧
  nm !! row.1.2 = Some (link_target lk) ∧
  link_value lk = row.2 ∧
  (row.1.2 ∈ invisible_nodes → link_color lk = transparent).
Proof.
  unfold broad_link.
  intros (s & Hs%getitem_Ok & (t & Ht%getitem_Ok & (c & Hc & [= <-])%rbind_Ok)%rbind_Ok)%rbind_Ok.
  simpl. split_and!; [done..|].
  intros Hinv. rewrite decide_True in Hc by done. congruence.
Qed.

Lemma specific_link_Ok nm row lk :
  specific_link nm row = Ok lk →
  nm !! row.1.1 = Some (link_source lk) ∧
  nm !! row.1.2 = Some (link_target lk) ∧
  link_value lk = row.2 ∧
  (row.1.2 ∈ invisible_nodes ∨ row.1.1 ∈ invisible_nodes → link_color lk = transparent).
Proof.
  unfold specific_link.
  intros (s & Hs%getitem_Ok & (t & Ht%getitem_Ok & (c & Hc & [= <-])%rbind_Ok)%rbind_Ok)%rbind_Ok.
  simpl. split_and!; [done..|].
  intros Hinv. rewrite decide_True in Hc by done. congruence.
Qed.

(** A figure is returned exactly when the spacing and all links could
    be computed; its node and link lists are then the projections of
    [nodes_of] and of the links of the two sorted flow sets. *)
Lemma create_sankey_diagram_Some df proportional fig :
  create_sankey_diagram df proportional = Ok (Some fig) ↔
  topic_flows df proportional ≠ [] ∧
  ∃ fameswap_spacing links1 links2,
    py_div (dec 9 10) (Qc_of_nat (length (fameswap_categories df))) = Ok fameswap_spacing ∧
    Forall2 (λ row lk, broad_link (node_mapping df proportional) row = Ok lk)
      (broad_flows_sorted df proportional) links1 ∧
    Forall2 (λ row lk, specific_link (node_mapping df proportional) row = Ok lk)
      (specific_flows_sorted df proportional) links2 ∧
    fig = mk_figure (nodes_of df proportional fameswap_spacing) (links1 ++ links2).
Proof.
  unfold create_sankey_diagram. case_decide as Hflows; [naive_solver|]. split.
  - intros (sp & Hsp & (l1 & Hl1%rmapM_Ok & (l2 & Hl2%rmapM_Ok & [= <-])%rbind_Ok)
                         %rbind_Ok)%rbind_Ok.
    split; [done|]. by exists sp, l1, l2.
  - intros (_ & sp & l1 & l2 & Hsp & Hl1%rmapM_Ok & Hl2%rmapM_Ok & ->).
    rewrite Hsp. simpl. rewrite Hl1. simpl. rewrite Hl2. done.
Qed.

Lemma create_sankey_diagram_None df proportional :
  create_sankey_diagram df proportional = Ok None ↔ topic_flows df proportional = [].
Proof.
  unfold create_sankey_diagram. case_decide as Hflows; [done|].
  split; [|done]. intros (?&?&(?&?&(?&?&?)%rbind_Ok)%rbind_Ok)%rbind_Ok. done.
Qed.

(** ** Positive weights *)

Lemma all_flows_count_pos df proportional f :
  f ∈ all_flows df proportional → (0 < flow_count f)%Qc.
Proof.
  intros (topic_col & tf & _ & Htf & _ & -> & _)%elem_of_all_flows.
  apply elem_of_topic_frame in Htf as [_ Hg].
  eapply (groupby_sum_pos sorted sorted_Permutation) in Hg; [done|].
  by intros r [? _]%list_elem_of_filter.
Qed.

Lemma elem_of_dropna_broad flows fb :
  fb ∈ dropna_broad flows ↔ fb.1 ∈ flows ∧ flow_broad_category fb.1 = Some fb.2.
Proof.
  unfold dropna_broad. rewrite list_elem_of_omap. destruct fb as [f b]; simpl. split.
  - intros (f' & Hf' & Hb). destruct (flow_broad_category f') eqn:E; naive_solver.
  - intros [Hf Hb]. exists f. by rewrite Hb.
Qed.

Lemma broad_flows_pos df proportional g :
  g ∈ broad_flows df proportional → (0 < g.2)%Qc.
Proof.
  apply (groupby_sum_pos _ (merge_sort_Permutation _)).
  intros fb [Hfb _]%elem_of_dropna_broad. by eapply all_flows_count_pos.
Qed.

Lemma specific_flows_pos df proportional g :
  g ∈ specific_flows df proportional → (0 < g.2)%Qc.
Proof.
  apply (groupby_sum_pos _ (merge_sort_Permutation _)).
  intros fb [Hfb _]%elem_of_dropna_broad. by eapply all_flows_count_pos.
Qed.

(** C6. In either aggregation mode every edge of a built diagram has a
    strictly positive weight; a flow with no weight is never emitted. *)
Theorem edge_weights_positive (df : DataFrame) (proportional : bool) (fig : Sankey) :
  create_sankey_diagram df proportional = Ok (Some fig) →
  Forall (λ v, (0 < v)%Qc) (fig_value fig).
Proof.
  intros (_ & sp & links1 & links2 & _ & Hl1 & Hl2 & ->)%create_sankey_diagram_Some.
  simpl. rewrite fmap_app. apply Forall_app. split; apply Forall_fmap, Forall_forall.
  - intros lk Hlk. apply list_elem_of_lookup in Hlk as [i Hi].
    destruct (Forall2_lookup_r _ _ _ _ _ Hl1 Hi) as (row & Hrow & Hlink).
    apply broad_link_Ok in Hlink as (_ & _ & Hval & _). simpl. rewrite Hval.
    apply (broad_flows_pos df proportional).
    rewrite <-broad_flows_sorted_Permutation. by eapply list_elem_of_lookup_2.
  - intros lk Hlk. apply list_elem_of_lookup in Hlk as [i Hi].
    destruct (Forall2_lookup_r _ _ _ _ _ Hl2 Hi) as (row & Hrow & Hlink).
    apply specific_link_Ok in Hlink as (_ & _ & Hval & _). simpl. rewrite Hval.
    apply (specific_flows_pos df proportional).
    rewrite <-specific_flows_sorted_Permutation. by eapply list_elem_of_lookup_2.
Qed.

Lemma edge_weights_positive_witness :
  ∃ fig, create_sankey_diagram df_example true = Ok (Some fig) ∧
         Forall (λ v, (0 < v)%Qc) (fig_value fig).
Proof.
  eexists. split; [vm_compute; reflexivity|].
  apply (edge_weights_positive df_example true). vm_compute. reflexivity.
Defined.

(** The spec's own example scenario: the two entities with two topics
    each are counted twice, so the outgoing weight (5 with the no-signal
    edge, 4 without it) is neither the number of entities (3) nor the
    number of entities with a topic (2). *)
Lemma binary_outgoing_weight_not_entity_count :
  sum_Qc (snd <$> filter (λ g : GroupedFlow, g.1.1 = "A")
                    (broad_flows_sorted df_example false))
    ≠ Qc_of_nat (length (filter (λ r, fameswap_category r = "A") (df_filtered df_example)))
  ∧
  sum_Qc (snd <$> filter (λ g : GroupedFlow, g.1.1 = "A" ∧ g.1.2 ≠ "Other")
                    (broad_flows_sorted df_example false))
    ≠ Qc_of_nat (length (filter (λ r, fameswap_category r = "A" ∧
                                      Exists (λ c : Column, c.2 r = 1%Z) explicit_columns)
                           (df_filtered df_example))).
Proof.
  split; intros H; apply (f_equal (λ q : Qc, Qnum q)) in H; vm_compute in H;
    discriminate.
Qed.

(** ** Proportional normalisation of a row *)

Lemma normalized_sum r (cols : list Column) :
  sum_Qc (normalized r <$> cols) =
    (Qc_of_nat (length (filter (λ topic_col : Column, topic_col.2 r = 1%Z) cols))
     * (if decide (0 < topic_sums r)%Z then 1 / Qc_of_Z (topic_sums r) else 0))%Qc.
Proof.
  induction cols as [|topic_col cols IH].
  { simpl. rewrite Qc_of_nat_0. ring. }
  rewrite fmap_cons, sum_Qc_cons, IH, filter_cons. unfold normalized.
  destruct (decide (topic_col.2 r = 1%Z)) as [H1|H1],
           (decide (0 < topic_sums r)%Z) as [HS|HS].
  - rewrite decide_True by done.
    change (length (?x :: ?l)) with (1 + length l).
    rewrite Qc_of_nat_add, Qc_of_nat_1. ring.
  - rewrite decide_False by tauto. ring.
  - rewrite decide_False by tauto. ring.
  - rewrite decide_False by tauto. ring.
Qed.

Lemma binary_sum_count r (cols : list Column) :
  Forall (λ topic_col : Column, topic_col.2 r = 0%Z ∨ topic_col.2 r = 1%Z) cols →
  sum_Z ((λ topic_col : Column, topic_col.2 r) <$> cols) =
    Z.of_nat (length (filter (λ topic_col : Column, topic_col.2 r = 1%Z) cols)).
Proof.
  induction 1 as [|topic_col cols Hc _ IH]; [done|].
  rewrite fmap_cons, filter_cons. simpl sum_Z. rewrite IH.
  destruct Hc as [Hc|Hc]; rewrite Hc; simpl; [done|]. lia.
Qed.

(** ** The no-signal flag *)

Lemma explicit_columns_eq :
  explicit_columns = [
    ("cryptocurrency_content", cryptocurrency_content);
    ("financial_content", financial_content);
    ("gambling_content", gambling_content);
    ("hateful_extremist_content", hateful_extremist_content);
    ("manosphere_redpill_content", manosphere_redpill_content);
    ("medical_health_content", medical_health_content);
    ("news_content", news_content);
    ("political_content", political_content);
    ("religious_content", religious_content) ].
Proof. reflexivity. Qed.

Lemma explicit_columns_zero r :
  Forall (λ topic_col : Column, topic_col.2 r = 0%Z) explicit_columns →
  cryptocurrency_content r = 0%Z ∧ financial_content r = 0%Z ∧
  gambling_content r = 0%Z ∧ hateful_extremist_content r = 0%Z ∧
  manosphere_redpill_content r = 0%Z ∧ medical_health_content r = 0%Z ∧
  news_content r = 0%Z ∧ political_content r = 0%Z ∧ religious_content r = 0%Z.
Proof.
  rewrite explicit_columns_eq, !Forall_cons. simpl. tauto.
Qed.

Lemma explicit_columns_zero_sum r :
  Forall (λ topic_col : Column, topic_col.2 r = 0%Z) explicit_columns →
  topic_sums r = unclassified r.
Proof.
  intros (H1&H2&H3&H4&H5&H6&H7&H8&H9)%explicit_columns_zero.
  unfold topic_sums. simpl. lia.
Qed.

(** The normalised values of a row whose explicit indicators are all 0:
    the [unclassified] column becomes 1 when its flag is 1, every
    explicit column becomes 0, and every column becomes 0 when the flag
    is not 1. *)
Lemma no_signal_normalized (r : Row) :
  Forall (λ topic_col : Column, topic_col.2 r = 0%Z) explicit_columns →
  (unclassified r = 1%Z → normalized r unclassified_column = 1%Qc) ∧
  (∀ topic_col, topic_col ∈ explicit_columns → normalized r topic_col = 0%Qc) ∧
  (unclassified r ≠ 1%Z →
   ∀ topic_col, topic_col ∈ topic_columns → normalized r topic_col = 0%Qc).
Proof.
  intros Hzero.
  assert (HS := explicit_columns_zero_sum r Hzero). split_and!.
  - intros H1. unfold normalized. rewrite HS. simpl. rewrite H1.
    rewrite decide_True by done. rewrite Z2Qc_inj_1. apply Qcmult_inv_r. done.
  - intros topic_col Hcol. rewrite Forall_forall in Hzero.
    unfold normalized. rewrite decide_False; [done|].
    intros [H1 _]. rewrite (Hzero topic_col Hcol) in H1. done.
  - intros Hne topic_col Hcol. unfold normalized.
    rewrite decide_False; [done|]. intros [H1 _].
    apply explicit_columns_zero in Hzero.
    unfold topic_columns in Hcol. rewrite !elem_of_cons in Hcol.
    destruct Hzero as (?&?&?&?&?&?&?&?&?).
    destruct Hcol as [->|[->|[->|[->|[->|[->|[->|[->|[->|[->|[]%elem_of_nil]]]]]]]]]];
      simpl in H1; congruence.
Qed.

(** A row without any flag: its explicit indicators are all 0, yet it
    adds nothing to the no-signal flow, and a table of such rows has no
    flow at all. *)
Lemma no_signal_not_computed :
  Forall (λ topic_col : Column, topic_col.2 (mk_row "A" []) = 0%Z) explicit_columns ∧
  normalized (mk_row "A" []) unclassified_column ≠ 1%Qc ∧
  create_sankey_diagram df_no_flags true = Ok None.
Proof.
  split_and!.
  - apply (bool_decide_unpack _). vm_compute. exact I.
  - intros H. apply (f_equal (λ q : Qc, Qnum q)) in H. vm_compute in H. discriminate.
  - vm_compute. reflexivity.
Qed.

(** ** Tables without flows *)

Lemma omap_nil {A B} (f : A → option B) (l : list A) :
  (∀ x, x ∈ l → f x = None) → omap f l = [].
Proof.
  induction l as [|x l IH]; intros Hf; [done|].
  simpl. rewrite Hf by set_solver. apply IH. set_solver.
Qed.

Lemma active_count_0 r topic_col :
  active_count r = 0 → topic_col ∈ topic_columns → topic_col.2 r ≠ 1%Z.
Proof.
  unfold active_count. intros Hk%nil_length_inv Hcol H1.
  exact (filter_nil_not_elem_of _ _ topic_col Hk H1 Hcol).
Qed.

Lemma contribution_pos_active proportional r topic_col :
  (0 < contribution proportional r topic_col)%Qc → topic_col.2 r = 1%Z.
Proof.
  unfold contribution, normalized. destruct proportional; case_decide; try done; tauto.
Qed.

Lemma filter_nil_intro {A} (P : A → Prop) `{!∀ x, Decision (P x)} (l : list A) :
  (∀ x, x ∈ l → ¬P x) → filter P l = [].
Proof.
  induction l as [|x l IH]; intros HP; [done|].
  rewrite filter_cons_False by set_solver. apply IH. set_solver.
Qed.

(** C7 (as the code has it). When no row that survives the exclusion
    has a topic flag set (in particular when no row survives), the build
    does not raise and returns no figure: the function returns [None]
    before any flow set is aggregated. *)
Theorem no_flows_returns_None (df : DataFrame) (proportional : bool) :
  Forall (λ r, active_count r = 0) (df_filtered df) →
  create_sankey_diagram df proportional = Ok None.
Proof.
  intros Hnone. apply create_sankey_diagram_None.
  rewrite Forall_forall in Hnone.
  unfold topic_flows. destruct proportional; apply omap_nil; intros topic_col Hcol.
  - unfold proportional_flows_of. simpl. rewrite filter_nil_intro; [done|].
    intros r Hr Hpos. eapply active_count_0; [by apply Hnone|done|].
    by apply (contribution_pos_active true).
  - unfold binary_flows_of. simpl. rewrite filter_nil_intro; [done|].
    intros r Hr H1. by eapply active_count_0; [by apply Hnone|done|].
Qed.

Lemma no_flows_returns_None_witness :
  create_sankey_diagram
    [mk_row "Beauty & Makeup" ["political_content"]; mk_row "A" []] true = Ok None.
Proof.
  apply no_flows_returns_None.
  apply (bool_decide_unpack _). vm_compute. exact I.
Defined.

(** The empty table: the function returns no figure at all, not a
    figure without edges. *)
Lemma empty_table_returns_no_figure :
  ¬ (∃ fig, create_sankey_diagram [] false = Ok (Some fig) ∧ fig_value fig = []) ∧
  ¬ (∃ fig, create_sankey_diagram [] true = Ok (Some fig) ∧ fig_value fig = []).
Proof.
  split; intros (fig & Hfig & _); vm_compute in Hfig; discriminate.
Qed.

(** ** Node indices *)

Lemma assign_indices_cons cat cats st :
  assign_indices (cat :: cats) st = assign_indices cats (<[cat := st.2]> st.1, S st.2).
Proof. done. Qed.

Lemma assign_indices_snd cats st :
  (assign_indices cats st).2 = st.2 + length cats.
Proof.
  revert st. induction cats as [|cat cats IH]; intros st; [simpl; lia|].
  rewrite assign_indices_cons, IH. simpl. lia.
Qed.

(** A key is only ever mapped to a position at which it stands. *)
Lemma assign_indices_lookup_Some cats st k i :
  (assign_indices cats st).1 !! k = Some i →
  st.1 !! k = Some i ∨ ((st.2 ≤ i)%nat ∧ cats !! (i - st.2) = Some k).
Proof.
  revert st. induction cats as [|cat cats IH]; intros st; [by left|].
  rewrite assign_indices_cons. intros [Hk|[Hle Hk]]%IH; simpl in *.
  - rewrite lookup_insert in Hk. case_decide as Hcat; [|by left].
    simplify_eq. right. split; [done|]. by rewrite Nat.sub_diag.
  - right. split; [lia|].
    replace (i - st.2) with (S (i - S st.2)) by lia. done.
Qed.

Lemma assign_indices_lookup_notin cats st k :
  k ∉ cats → (assign_indices cats st).1 !! k = st.1 !! k.
Proof.
  revert st. induction cats as [|cat cats IH]; intros st Hk; [done|].
  rewrite assign_indices_cons, IH by set_solver. simpl.
  apply lookup_insert_ne. set_solver.
Qed.

Lemma assign_indices_lookup_NoDup cats st k j :
  NoDup cats → cats !! j = Some k →
  (assign_indices cats st).1 !! k = Some (st.2 + j).
Proof.
  intros Hnd. revert st j.
  induction Hnd as [|cat cats Hcat Hnd IH]; intros st j Hj; [done|].
  rewrite assign_indices_cons. destruct j as [|j]; simpl in Hj.
  - simplify_eq. rewrite assign_indices_lookup_notin by done. simpl.
    rewrite lookup_insert_eq. f_equal. lia.
  - rewrite (IH _ j) by done. simpl. f_equal. lia.
Qed.

Lemma assign_indices_is_Some cats st k :
  k ∈ cats ∨ is_Some (st.1 !! k) → is_Some ((assign_indices cats st).1 !! k).
Proof.
  revert st. induction cats as [|cat cats IH]; intros st.
  { intros [[]%elem_of_nil|?]. done. }
  rewrite assign_indices_cons. intros Hk. apply IH. simpl.
  rewrite lookup_insert. case_decide; [by right; eexists|].
  destruct Hk as [Hk|Hk]; [|by right]. left. set_solver.
Qed.

Lemma node_mapping_of_lookup_Some l1 l2 l3 k i :
  node_mapping_of l1 l2 l3 !! k = Some i → (l1 ++ l2 ++ l3) !! i = Some k.
Proof.
  unfold node_mapping_of.
  intros [[[Hk|[_ Hk]]%assign_indices_lookup_Some|[Hle Hk]]%assign_indices_lookup_Some
         |[Hle Hk]]%assign_indices_lookup_Some.
  - done.
  - simpl in Hk. rewrite Nat.sub_0_r in Hk. by apply lookup_app_l_Some.
  - rewrite assign_indices_snd in Hle, Hk. simpl in Hle, Hk.
    rewrite lookup_app_r by lia. by apply lookup_app_l_Some.
  - rewrite !assign_indices_snd in Hle, Hk. simpl in Hle, Hk.
    rewrite lookup_app_r by lia. rewrite lookup_app_r by lia.
    rewrite <-Hk. f_equal. lia.
Qed.

Lemma node_mapping_of_is_Some l1 l2 l3 k :
  k ∈ l1 ++ l2 ++ l3 → is_Some (node_mapping_of l1 l2 l3 !! k).
Proof.
  rewrite !elem_of_app. unfold node_mapping_of. intros Hk.
  apply assign_indices_is_Some.
  destruct Hk as [Hk|[Hk|Hk]]; [right|right|by left].
  - apply assign_indices_is_Some. right. apply assign_indices_is_Some. by left.
  - apply assign_indices_is_Some. by left.
Qed.

(** With duplicate-free, pairwise disjoint lists every label gets the
    index of its position in the concatenation. *)
Lemma node_mapping_of_lookup_disjoint l1 l2 l3 k i :
  NoDup l1 → NoDup l2 → NoDup l3 → l1 ## l2 → l1 ## l3 → l2 ## l3 →
  (l1 ++ l2 ++ l3) !! i = Some k → node_mapping_of l1 l2 l3 !! k = Some i.
Proof.
  intros Hn1 Hn2 Hn3 H12 H13 H23 Hi.
  assert (k ∈ l1 ++ l2 ++ l3) as Hk by (by eapply list_elem_of_lookup_2).
  destruct (node_mapping_of_is_Some _ _ _ _ Hk) as [i' Hi'].
  assert (Hi'' := node_mapping_of_lookup_Some _ _ _ _ _ Hi').
  rewrite Hi'. f_equal.
  eapply NoDup_lookup; [|done..].
  apply NoDup_app. split_and!; [done| |].
  - intros x Hx [?|?]%elem_of_app; [by eapply H12|by eapply H13].
  - apply NoDup_app. split_and!; [done| |done]. intros x ??. by eapply H23.
Qed.

(** ** The labels of the flows *)

Lemma groupby_sum_key_inv {A K} `{EqDecision K} (sort_keys : list K → list K)
    (key : A → K) (val : A → Qc) (rows : list A) g :
  (∀ l, sort_keys l ≡ₚ l) →
  g ∈ groupby_sum sort_keys key val rows → ∃ row, row ∈ rows ∧ key row = g.1.
Proof.
  intros Hsort [(row & Hkey & Hrow)%list_elem_of_fmap _]%elem_of_groupby_sum; [|done].
  eauto.
Qed.

Lemma groupby_sum_key_intro {A K} `{EqDecision K} (sort_keys : list K → list K)
    (key : A → K) (val : A → Qc) (rows : list A) row :
  (∀ l, sort_keys l ≡ₚ l) →
  row ∈ rows → ∃ g, g ∈ groupby_sum sort_keys key val rows ∧ g.1 = key row.
Proof.
  intros Hsort Hrow.
  exists (key row, sum_Qc (val <$> filter (λ r, key r = key row) rows)).
  split; [|done]. apply elem_of_groupby_sum; [done|]. split; [|done].
  simpl. by apply list_elem_of_fmap_2.
Qed.

Lemma all_flows_row df proportional f :
  f ∈ all_flows df proportional →
  ∃ r, r ∈ df_filtered df ∧ fameswap_category r = flow_fameswap_category f.
Proof.
  intros (topic_col & tf & _ & Htf & -> & _)%elem_of_all_flows.
  apply elem_of_topic_frame in Htf as [_ Hg].
  apply (groupby_sum_key_inv _ _ _ _ _ sorted_Permutation) in Hg as (r & Hr & Hkey).
  apply list_elem_of_filter in Hr as [_ Hr]. eauto.
Qed.

Lemma elem_of_fameswap_categories df cat :
  cat ∈ fameswap_categories df ↔
    cat ≠ "Beauty & Makeup" ∧ ∃ r, r ∈ df ∧ fameswap_category r = cat.
Proof.
  unfold fameswap_categories.
  rewrite list_elem_of_filter, elem_of_get_ordered_list, elem_of_unique,
    list_elem_of_fmap. naive_solver.
Qed.

Lemma df_filtered_fameswap_categories df r :
  r ∈ df_filtered df → fameswap_category r ∈ fameswap_categories df.
Proof.
  intros [Hne Hr]%list_elem_of_filter. apply elem_of_fameswap_categories. eauto.
Qed.

Lemma broad_flows_labels df proportional g :
  g ∈ broad_flows df proportional →
  g.1.1 ∈ fameswap_categories df ∧ g.1.2 ∈ broad_category_list df proportional.
Proof.
  intros Hg. split.
  - apply (groupby_sum_key_inv _ _ _ _ _ (merge_sort_Permutation _)) in Hg
      as (fb & [Hfb _]%elem_of_dropna_broad & <-).
    apply all_flows_row in Hfb as (r & Hr & <-).
    by apply df_filtered_fameswap_categories.
  - unfold broad_category_list.
    rewrite elem_of_get_ordered_list, elem_of_unique.
    by apply (list_elem_of_fmap_2 (λ f : GroupedFlow, f.1.2)).
Qed.

Lemma specific_flows_labels df proportional g :
  g ∈ specific_flows df proportional →
  g.1.1 ∈ broad_category_list df proportional ∧ g.1.2 ∈ specific_topics df proportional.
Proof.
  intros Hg. split.
  - apply (groupby_sum_key_inv _ _ _ _ _ (merge_sort_Permutation _)) in Hg
      as (fb & Hfb & <-).
    destruct (groupby_sum_key_intro (merge_sort pair_le)
                (λ fb : Flow * string, (flow_fameswap_category fb.1, fb.2))
                (λ fb, flow_count fb.1) _ fb (merge_sort_Permutation _) Hfb)
      as (g' & Hg' & Hkey).
    apply (broad_flows_labels df proportional) in Hg' as [_ Hg'].
    by rewrite Hkey in Hg'.
  - unfold specific_topics.
    rewrite elem_of_get_ordered_list, elem_of_unique.
    by apply (list_elem_of_fmap_2 (λ f : GroupedFlow, f.1.2)).
Qed.

Lemma NoDup_fameswap_categories df : NoDup (fameswap_categories df).
Proof. apply NoDup_filter, NoDup_get_ordered_list. Qed.

(** ** The node lists *)

Lemma length_nodes_of df proportional sp :
  length (nodes_of df proportional sp) = length (node_categories df proportional).
Proof.
  unfold nodes_of, node_categories. by rewrite !length_app, length_imap, !length_fmap.
Qed.

Section node_lists.
Context (l1 l2 l3 : list string) (sp : Qc).

Lemma level_lookup_gen i cat :
  (l1 ++ l2 ++ l3) !! i = Some cat →
  match (if decide (i < length l1) then 1
         else if decide (i < length l1 + length l2) then 2 else 3) with
  | 1 => l1 !! i = Some cat
  | 2 => l2 !! (i - length l1) = Some cat
  | _ => l3 !! (i - length l1 - length l2) = Some cat
  end.
Proof.
  intros Hi. destruct (decide (i < length l1)) as [H1|H1].
  { by rewrite lookup_app_l in Hi. }
  rewrite lookup_app_r in Hi by lia.
  destruct (decide (i < length l1 + length l2)) as [H2|H2].
  { by rewrite lookup_app_l in Hi by lia. }
  by rewrite lookup_app_r in Hi by lia.
Qed.

Lemma nodes_lookup_gen i cat :
  (l1 ++ l2 ++ l3) !! i = Some cat →
  (imap (fameswap_node sp) l1 ++ (broad_node <$> l2) ++ (specific_node <$> l3)) !! i =
    Some (match (if decide (i < length l1) then 1
                 else if decide (i < length l1 + length l2) then 2 else 3) with
          | 1 => fameswap_node sp i cat
          | 2 => broad_node cat
          | _ => specific_node cat
          end).
Proof.
  intros Hi. assert (Hlvl := level_lookup_gen i cat Hi).
  destruct (decide (i < length l1)) as [H1|H1].
  { rewrite lookup_app_l by (by rewrite length_imap).
    by rewrite list_lookup_imap, Hlvl. }
  rewrite lookup_app_r by (rewrite length_imap; lia). rewrite length_imap.
  destruct (decide (i < length l1 + length l2)) as [H2|H2].
  { rewrite lookup_app_l by (rewrite length_fmap; lia).
    by rewrite list_lookup_fmap, Hlvl. }
  rewrite lookup_app_r by (rewrite length_fmap; lia).
  by rewrite list_lookup_fmap, length_fmap, Hlvl.
Qed.
End node_lists.

Lemma node_level_lookup df proportional i cat :
  node_categories df proportional !! i = Some cat →
  match node_level df proportional i with
  | 1 => fameswap_categories df !! i = Some cat
  | 2 => broad_category_list df proportional
           !! (i - length (fameswap_categories df)) = Some cat
  | _ => specific_topics df proportional
           !! (i - length (fameswap_categories df)
                 - length (broad_category_list df proportional)) = Some cat
  end.
Proof. apply level_lookup_gen. Qed.

(** The node appended for the category at position [i]. *)
Lemma nodes_of_lookup df proportional sp i cat :
  node_categories df proportional !! i = Some cat →
  nodes_of df proportional sp !! i =
    Some (match node_level df proportional i with
          | 1 => fameswap_node sp i cat
          | 2 => broad_node cat
          | _ => specific_node cat
          end).
Proof. apply nodes_lookup_gen. Qed.

Lemma node_categories_lookup_level df proportional i cat :
  node_categories df proportional !! i = Some cat →
  match node_level df proportional i with
  | 1 => cat ∈ fameswap_categories df
  | 2 => cat ∈ broad_category_list df proportional
  | _ => cat ∈ specific_topics df proportional
  end.
Proof.
  intros Hi%node_level_lookup.
  destruct (node_level df proportional i) as [|[|[|?]]];
    by eapply list_elem_of_lookup_2.
Qed.

Lemma node_level_range df proportional i :
  (1 ≤ node_level df proportional i ≤ 3)%nat.
Proof. unfold node_level. repeat case_decide; lia. Qed.

(** ** Column positions *)

Lemma node_x_of_level df proportional sp i cat n :
  node_categories df proportional !! i = Some cat →
  nodes_of df proportional sp !! i = Some n →
  node_x n = match node_level df proportional i with
             | 1 => dec 1 100
             | 2 => if decide (cat ∈ invisible_nodes) then dec 3 10 else dec 5 10
             | _ => if decide (cat ∈ invisible_nodes) then Qc_of_Z 2 else dec 8 10
             end.
Proof.
  intros Hcat Hn. rewrite (nodes_of_lookup _ _ _ _ _ Hcat) in Hn. simplify_eq.
  destruct (node_level df proportional i) as [|[|[|?]]]; try done;
    unfold broad_node, specific_node; by case_decide.
Qed.

(** C8 (as the code has it). The x position of a node is fixed by its
    level and its visibility: 0.01 at level 1; 0.5 for a visible and 0.3
    for the invisible node of level 2; 0.8 for a visible and 2 for the
    invisible node of level 3. So there are five column values, not
    three; they are strictly increasing by level, for invisible nodes as
    well as visible ones. *)
Theorem node_x_positions (df : DataFrame) (proportional : bool) (fig : Sankey) :
  create_sankey_diagram df proportional = Ok (Some fig) →
  length (fig_x fig) = length (node_categories df proportional) ∧
  (∀ i cat x,
      node_categories df proportional !! i = Some cat → fig_x fig !! i = Some x →
      x = match node_level df proportional i with
          | 1 => dec 1 100
          | 2 => if decide (cat ∈ invisible_nodes) then dec 3 10 else dec 5 10
          | _ => if decide (cat ∈ invisible_nodes) then Qc_of_Z 2 else dec 8 10
          end) ∧
  (∀ i j xi xj,
      fig_x fig !! i = Some xi → fig_x fig !! j = Some xj →
      node_level df proportional i < node_level df proportional j →
      (xi < xj)%Qc).
Proof.
  intros (_ & sp & links1 & links2 & _ & _ & _ & ->)%create_sankey_diagram_Some.
  simpl.
  assert (∀ i cat x,
      node_categories df proportional !! i = Some cat →
      (node_x <$> nodes_of df proportional sp) !! i = Some x →
      x = match node_level df proportional i with
          | 1 => dec 1 100
          | 2 => if decide (cat ∈ invisible_nodes) then dec 3 10 else dec 5 10
          | _ => if decide (cat ∈ invisible_nodes) then Qc_of_Z 2 else dec 8 10
          end) as Hx.
  { intros i cat x Hcat (n & -> & Hn)%list_lookup_fmap_Some.
    by eapply node_x_of_level. }
  assert (∀ i x, (node_x <$> nodes_of df proportional sp) !! i = Some x →
                 ∃ cat, node_categories df proportional !! i = Some cat) as Hcat.
  { intros i x Hi%lookup_lt_Some. apply lookup_lt_is_Some.
    by rewrite length_fmap, length_nodes_of in Hi. }
  split_and!.
  - by rewrite length_fmap, length_nodes_of.
  - done.
  - intros i j xi xj Hi Hj Hlt.
    destruct (Hcat _ _ Hi) as [ci Hci], (Hcat _ _ Hj) as [cj Hcj].
    rewrite (Hx _ _ _ Hci Hi), (Hx _ _ _ Hcj Hj).
    assert (Hri := node_level_range df proportional i).
    assert (Hrj := node_level_range df proportional j).
    destruct (node_level df proportional i) as [|[|[|?]]],
             (node_level df proportional j) as [|[|[|?]]]; try lia;
      repeat case_decide; reflexivity.
Qed.

Lemma node_x_positions_witness :
  ∃ fig, create_sankey_diagram df_example false = Ok (Some fig) ∧
         length (fig_x fig) = length (node_categories df_example false).
Proof.
  eexists. split; [vm_compute; reflexivity|].
  apply (node_x_positions df_example false). vm_compute. reflexivity.
Defined.

(** The two level-2 nodes "Other" and "Ideological" of the example
    scenario stand at different x positions, so no assignment of one
    column value per level describes the figure. *)
Lemma node_x_not_one_column_per_level :
  ∃ fig, create_sankey_diagram df_example false = Ok (Some fig) ∧
    ¬ (∃ column : nat → Qc,
         ∀ i x, fig_x fig !! i = Some x → x = column (node_level df_example false i)).
Proof.
  eexists. split; [vm_compute; reflexivity|].
  intros [column Hcol].
  assert (H1 := Hcol 1 (dec 3 10) eq_refl).
  assert (H2 := Hcol 2 (dec 5 10) eq_refl).
  change (node_level df_example false 1) with 2 in H1.
  change (node_level df_example false 2) with 2 in H2.
  rewrite <-H2 in H1.
  apply (f_equal (λ q : Qc, Qnum q)) in H1. vm_compute in H1. discriminate.
Qed.

(** ** Invisible nodes *)

Lemma node_mapping_lookup_Some df proportional k i :
  node_mapping df proportional !! k = Some i →
  node_categories df proportional !! i = Some k.
Proof. apply node_mapping_of_lookup_Some. Qed.

Lemma invisible_node_lookup df proportional sp i :
  invisible_node df proportional i →
  ∃ n, nodes_of df proportional sp !! i = Some n ∧
       node_label n = "" ∧ node_color n = transparent.
Proof.
  intros (cat & Hcat & Hlvl & Hinv).
  rewrite (nodes_of_lookup _ _ sp _ _ Hcat). eexists. split; [done|].
  destruct (node_level df proportional i) as [|[|[|?]]]; try lia;
    unfold broad_node, specific_node; by rewrite decide_True.
Qed.

(** Where the edges at the invisible nodes are transparent. In every
    built diagram every invisible node has the empty label and the fill
    "rgba(0,0,0,0)". Every edge whose source node or target node is an
    invisible node has that color too, as long as no primary category
    of the table is itself named like an invisible node ("Other",
    "Not at-risk"): the two edge loops decide the color from the labels
    of the flow, while the indices come from [node_mapping]. *)
Theorem invisible_nodes_transparent (df : DataFrame) (proportional : bool) (fig : Sankey) :
  create_sankey_diagram df proportional = Ok (Some fig) →
  (Forall (λ r, fameswap_category r ∉ invisible_nodes) (df_filtered df) →
   ∀ j s t c,
     fig_source fig !! j = Some s → fig_target fig !! j = Some t →
     fig_link_color fig !! j = Some c →
     invisible_node df proportional s ∨ invisible_node df proportional t →
     c = transparent) ∧
  (∀ i, invisible_node df proportional i →
        fig_label fig !! i = Some "" ∧ fig_color fig !! i = Some transparent).
Proof.
  intros (_ & sp & links1 & links2 & _ & Hl1 & Hl2 & ->)%create_sankey_diagram_Some.
  simpl. split.
  - intros Hprim j s t c (lk & -> & Hlk)%list_lookup_fmap_Some
      (lk' & -> & Hlk')%list_lookup_fmap_Some
      (lk'' & -> & Hlk'')%list_lookup_fmap_Some Hinv.
    rewrite Hlk in Hlk', Hlk''. injection Hlk' as <-. injection Hlk'' as <-.
    apply lookup_app_Some in Hlk as [Hlk|[_ Hlk]].
    + destruct (Forall2_lookup_r _ _ _ _ _ Hl1 Hlk) as (row & Hrow & Hlink).
      apply broad_link_Ok in Hlink as (Hs & Ht & _ & Hcol).
      apply node_mapping_lookup_Some in Hs, Ht.
      destruct Hinv as [(cat & Hcat & _ & Hinv)|(cat & Hcat & _ & Hinv)];
        simplify_eq; [|by apply Hcol].
      exfalso. apply list_elem_of_lookup_2 in Hrow.
      rewrite broad_flows_sorted_Permutation in Hrow.
      apply broad_flows_labels in Hrow as [Hrow _].
      apply elem_of_fameswap_categories in Hrow as (Hne & r & Hr & Hcatr).
      rewrite Forall_forall in Hprim. apply (Hprim r); [|by rewrite Hcatr].
      apply list_elem_of_filter. by rewrite Hcatr.
    + destruct (Forall2_lookup_r _ _ _ _ _ Hl2 Hlk) as (row & Hrow & Hlink).
      apply specific_link_Ok in Hlink as (Hs & Ht & _ & Hcol).
      apply node_mapping_lookup_Some in Hs, Ht.
      destruct Hinv as [(cat & Hcat & _ & Hinv)|(cat & Hcat & _ & Hinv)];
        simplify_eq; apply Hcol; auto.
  - intros i (n & Hn & Hlabel & Hcolor)%(invisible_node_lookup _ _ sp).
    rewrite !list_lookup_fmap, Hn. simpl. by rewrite Hlabel, Hcolor.
Qed.

Lemma invisible_nodes_transparent_witness :
  ∃ fig, create_sankey_diagram df_example false = Ok (Some fig) ∧
    (∀ j s t c,
       fig_source fig !! j = Some s → fig_target fig !! j = Some t →
       fig_link_color fig !! j = Some c →
       invisible_node df_example false s ∨ invisible_node df_example false t →
       c = transparent) ∧
    (∀ i, invisible_node df_example false i →
          fig_label fig !! i = Some "" ∧ fig_color fig !! i = Some transparent).
Proof.
  eexists. split_and!.
  - vm_compute. reflexivity.
  - apply (invisible_nodes_transparent df_example false).
    + vm_compute. reflexivity.
    + apply (bool_decide_unpack _). vm_compute. exact I.
  - apply (invisible_nodes_transparent df_example false). vm_compute. reflexivity.
Defined.

(** C5. The claim fails on [df_collision], a table with a primary
    category named "Other", built in the binary mode. [node_mapping] is
    one dictionary for the three levels, so the loop over
    [broad_category_list] overwrites the entry that the loop over
    [fameswap_categories] wrote for "Other": the edge of that primary
    category towards "Ideological" gets as its source the index of the
    invisible level-2 node "Other". The first edge loop looks at
    [row['broad_category']] only, so the edge keeps the color of
    "Ideological" instead of "rgba(0,0,0,0)", against the comments of
    the loops ("make invisible ones transparent", "links to/from
    invisible nodes"). *)
Theorem colored_edge_at_invisible_node :
  ∃ fig, create_sankey_diagram df_collision false = Ok (Some fig) ∧
    ∃ j s c, fig_source fig !! j = Some s ∧ fig_link_color fig !! j = Some c ∧
             invisible_node df_collision false s ∧ c ≠ transparent.
Proof.
  eexists. split; [vm_compute; reflexivity|].
  exists 1, 2, "rgba(255, 107, 107, 0.6)". split_and!; [reflexivity..| |discriminate].
  exists "Other". split_and!.
  - vm_compute. reflexivity.
  - vm_compute. lia.
  - apply (bool_decide_unpack _). vm_compute. exact I.
Qed.

(** ** The node index map *)

Lemma list_disjoint_Forall (l1 l2 : list string) :
  Forall (λ x, x ∉ l2) l1 → l1 ## l2.
Proof. rewrite Forall_forall. intros H x Hx Hy. by apply (H x). Qed.

Lemma NoDup_node_categories df proportional :
  levels_disjoint df proportional → NoDup (node_categories df proportional).
Proof.
  intros (H12 & H13 & H23). unfold node_categories.
  apply NoDup_app. split_and!; [apply NoDup_fameswap_categories| |].
  - intros x Hx [?|?]%elem_of_app; [by eapply H12|by eapply H13].
  - apply NoDup_app. split_and!; [apply NoDup_get_ordered_list| |apply NoDup_get_ordered_list].
    intros x ??. by eapply H23.
Qed.

Lemma node_mapping_lookup_disjoint df proportional i cat :
  levels_disjoint df proportional →
  node_categories df proportional !! i = Some cat →
  node_mapping df proportional !! cat = Some i.
Proof.
  intros (H12 & H13 & H23).
  apply node_mapping_of_lookup_disjoint; [..|exact H12|exact H13|exact H23].
  - apply NoDup_fameswap_categories.
  - apply NoDup_get_ordered_list.
  - apply NoDup_get_ordered_list.
Qed.

(** With disjoint lists, a label stands at the level of its list. *)
Lemma node_level_of_label df proportional i cat :
  levels_disjoint df proportional →
  node_categories df proportional !! i = Some cat →
  (cat ∈ fameswap_categories df → node_level df proportional i = 1) ∧
  (cat ∈ broad_category_list df proportional → node_level df proportional i = 2) ∧
  (cat ∈ specific_topics df proportional → node_level df proportional i = 3).
Proof.
  intros (H12 & H13 & H23) Hi%node_categories_lookup_level.
  assert (Hr := node_level_range df proportional i).
  destruct (node_level df proportional i) as [|[|[|[|?]]]]; try lia;
    split_and!; intros Hcat; try done; exfalso;
    first [by eapply H12|by eapply H13|by eapply H23].
Qed.

(** C10. [node_mapping] is one dictionary keyed by label for all three
    levels. When the three category lists are pairwise disjoint, every
    category is mapped to its position in the concatenation of the
    lists, and the source and target of every edge are nodes of the
    levels of the flow (1→2 for the first loop, 2→3 for the second).
    When a label occurs at two levels, as the primary category "Other"
    of [df_collision] does, the later loop overwrites its entry and
    every edge naming the label uses the index of the deeper node. *)
Theorem node_index_map :
  (∀ df proportional,
     levels_disjoint df proportional →
     ∀ i cat, node_categories df proportional !! i = Some cat →
              node_mapping df proportional !! cat = Some i) ∧
  (∀ df proportional fig,
     create_sankey_diagram df proportional = Ok (Some fig) →
     levels_disjoint df proportional →
     ∀ j s t,
       fig_source fig !! j = Some s → fig_target fig !! j = Some t →
       ∃ row,
         (broad_flows_sorted df proportional ++ specific_flows_sorted df proportional) !! j
           = Some row ∧
         node_categories df proportional !! s = Some row.1.1 ∧
         node_categories df proportional !! t = Some row.1.2 ∧
         node_level df proportional s =
           (if decide (j < length (broad_flows_sorted df proportional)) then 1 else 2) ∧
         node_level df proportional t = S (node_level df proportional s)) ∧
  (∃ fig,
     create_sankey_diagram df_collision false = Ok (Some fig) ∧
     node_categories df_collision false =
       ["A"; "Other"; "Other"; "Ideological"; "Not at-risk"; "Political"] ∧
     node_level df_collision false 1 = 1 ∧
     node_level df_collision false 2 = 2 ∧
     node_mapping df_collision false !! "Other" = Some 2 ∧
     fst <$> (broad_flows_sorted df_collision false
                ++ specific_flows_sorted df_collision false) =
       [("A", "Other"); ("Other", "Ideological");
        ("Other", "Not at-risk"); ("Ideological", "Political")] ∧
     fig_source fig = [0; 2; 2; 3] ∧
     fig_target fig = [2; 3; 4; 5]).
Proof.
  split_and!.
  - intros df proportional Hdisj i cat. by apply node_mapping_lookup_disjoint.
  - intros df proportional fig
      (_ & sp & links1 & links2 & _ & Hl1 & Hl2 & ->)%create_sankey_diagram_Some Hdisj.
    simpl. intros j s t (lk & -> & Hlk)%list_lookup_fmap_Some
      (lk' & -> & Hlk')%list_lookup_fmap_Some.
    rewrite Hlk in Hlk'. injection Hlk' as <-.
    assert (Hlen := Forall2_length _ _ _ Hl1).
    apply lookup_app_Some in Hlk as [Hlk|[Hge Hlk]].
    + destruct (Forall2_lookup_r _ _ _ _ _ Hl1 Hlk) as (row & Hrow & Hlink).
      apply broad_link_Ok in Hlink as (Hs & Ht & _ & _).
      apply node_mapping_lookup_Some in Hs, Ht.
      assert (row ∈ broad_flows df proportional) as [Hsrc Htgt]%broad_flows_labels.
      { rewrite <-broad_flows_sorted_Permutation. by eapply list_elem_of_lookup_2. }
      exists row. rewrite decide_True by (apply lookup_lt_Some in Hlk; lia).
      destruct (node_level_of_label _ _ _ _ Hdisj Hs) as (Hls & _ & _).
      destruct (node_level_of_label _ _ _ _ Hdisj Ht) as (_ & Hlt & _).
      rewrite (Hls Hsrc), (Hlt Htgt).
      split_and!; [by apply lookup_app_l_Some|done..].
    + destruct (Forall2_lookup_r _ _ _ _ _ Hl2 Hlk) as (row & Hrow & Hlink).
      apply specific_link_Ok in Hlink as (Hs & Ht & _ & _).
      apply node_mapping_lookup_Some in Hs, Ht.
      assert (row ∈ specific_flows df proportional) as [Hsrc Htgt]%specific_flows_labels.
      { rewrite <-specific_flows_sorted_Permutation. by eapply list_elem_of_lookup_2. }
      exists row. rewrite decide_False by lia.
      destruct (node_level_of_label _ _ _ _ Hdisj Hs) as (_ & Hls & _).
      destruct (node_level_of_label _ _ _ _ Hdisj Ht) as (_ & _ & Hlt).
      rewrite (Hls Hsrc), (Hlt Htgt).
      split_and!; [|done..]. rewrite lookup_app_r by lia. by rewrite Hlen.
  - eexists. split_and!; vm_compute; reflexivity.
Qed.

Lemma node_index_map_witness :
  node_mapping df_example false !! "Ideological" = Some 2 ∧
  ∃ fig, create_sankey_diagram df_example false = Ok (Some fig) ∧
    ∀ j s t,
      fig_source fig !! j = Some s → fig_target fig !! j = Some t →
      ∃ row,
        (broad_flows_sorted df_example false ++ specific_flows_sorted df_example false) !! j
          = Some row ∧
        node_categories df_example false !! s = Some row.1.1 ∧
        node_categories df_example false !! t = Some row.1.2 ∧
        node_level df_example false s =
          (if decide (j < length (broad_flows_sorted df_example false)) then 1 else 2) ∧
        node_level df_example false t = S (node_level df_example false s).
Proof.
  assert (levels_disjoint df_example false) as Hdisj.
  { split_and!; apply list_disjoint_Forall, (bool_decide_unpack _); vm_compute; exact I. }
  split.
  - apply (proj1 node_index_map df_example false Hdisj). vm_compute. reflexivity.
  - eexists. split; [vm_compute; reflexivity|].
    apply (proj1 (proj2 node_index_map) df_example false); [|exact Hdisj].
    vm_compute. reflexivity.
Defined.

(** ** The exclusion of "Beauty & Makeup" *)

Lemma StronglySorted_filter {A} (R : relation A) (P : A → Prop)
    `{!∀ x, Decision (P x)} (l : list A) :
  StronglySorted R l → StronglySorted R (filter P l).
Proof.
  induction 1 as [|x l _ IH Hx]; [constructor|].
  rewrite filter_cons. case_decide; [|done]. constructor; [done|].
  rewrite Forall_forall in Hx. apply Forall_forall.
  intros y [_ Hy]%list_elem_of_filter. auto.
Qed.

Lemma df_filtered_idemp df : df_filtered (df_filtered df) = df_filtered df.
Proof.
  unfold df_filtered. rewrite list_filter_filter. apply list_filter_iff. tauto.
Qed.

Lemma topic_flows_filtered df proportional :
  topic_flows (df_filtered df) proportional = topic_flows df proportional.
Proof. unfold topic_flows. by rewrite df_filtered_idemp. Qed.

Lemma all_flows_filtered df proportional :
  all_flows (df_filtered df) proportional = all_flows df proportional.
Proof. unfold all_flows. by rewrite topic_flows_filtered. Qed.

Lemma broad_flows_filtered df proportional :
  broad_flows (df_filtered df) proportional = broad_flows df proportional.
Proof. unfold broad_flows. by rewrite all_flows_filtered. Qed.

Lemma specific_flows_filtered df proportional :
  specific_flows (df_filtered df) proportional = specific_flows df proportional.
Proof. unfold specific_flows. by rewrite all_flows_filtered. Qed.

Lemma broad_category_list_filtered df proportional :
  broad_category_list (df_filtered df) proportional = broad_category_list df proportional.
Proof. unfold broad_category_list. by rewrite broad_flows_filtered. Qed.

Lemma specific_topics_filtered df proportional :
  specific_topics (df_filtered df) proportional = specific_topics df proportional.
Proof. unfold specific_topics. by rewrite specific_flows_filtered. Qed.

(** Dropping the excluded label from the ordered list of all observed
    primary categories gives the ordered list of the primary categories
    observed without the excluded rows. *)
Lemma get_ordered_list_exclude (available_items available_items' order_list : list string)
    (excluded : string) :
  (∀ x, x ∈ available_items' ↔ x ∈ available_items ∧ x ≠ excluded) →
  filter (λ cat, cat ≠ excluded) (get_ordered_list available_items' order_list) =
    filter (λ cat, cat ≠ excluded) (get_ordered_list available_items order_list).
Proof.
  intros Hav. rewrite !get_ordered_list_spec, !filter_app. f_equal.
  - rewrite !list_filter_filter. apply list_filter_iff. intros x.
    rewrite !elem_of_list_to_set, Hav. tauto.
  - apply sorted_ext.
    + apply NoDup_filter. rewrite sorted_Permutation. apply NoDup_elements.
    + apply NoDup_filter. rewrite sorted_Permutation. apply NoDup_elements.
    + intros x. rewrite !list_elem_of_filter, !elem_of_sorted, !elem_of_elements,
        !elem_of_difference, !elem_of_list_to_set, Hav. tauto.
    + apply StronglySorted_filter, sorted_StronglySorted.
    + apply StronglySorted_filter, sorted_StronglySorted.
Qed.

Lemma fameswap_categories_filtered df :
  fameswap_categories (df_filtered df) = fameswap_categories df.
Proof.
  unfold fameswap_categories. apply get_ordered_list_exclude. intros x.
  rewrite !elem_of_unique, !list_elem_of_fmap. unfold df_filtered.
  setoid_rewrite list_elem_of_filter. naive_solver.
Qed.

(** C9. The excluded primary category "Beauty & Makeup" is not a level-1
    node and no flow leaves it; the flow sets, and the whole result of
    the build, are those of the table without the rows of the excluded
    category, so every flow of another primary category keeps the
    weight it has without these rows. *)
Theorem exclusion_frame (df : DataFrame) (proportional : bool) :
  ("Beauty & Makeup" ∉ fameswap_categories df) ∧
  (∀ g : GroupedFlow, g ∈ broad_flows df proportional → g.1.1 ≠ "Beauty & Makeup") ∧
  broad_flows df proportional = broad_flows (df_filtered df) proportional ∧
  specific_flows df proportional = specific_flows (df_filtered df) proportional ∧
  create_sankey_diagram df proportional
    = create_sankey_diagram (df_filtered df) proportional.
Proof.
  split_and!.
  - rewrite elem_of_fameswap_categories. tauto.
  - intros g [Hg _]%broad_flows_labels Heq. rewrite Heq in Hg.
    apply elem_of_fameswap_categories in Hg. tauto.
  - by rewrite broad_flows_filtered.
  - by rewrite specific_flows_filtered.
  - unfold create_sankey_diagram, nodes_of, node_mapping, broad_flows_sorted,
      specific_flows_sorted.
    by rewrite topic_flows_filtered, fameswap_categories_filtered,
      broad_category_list_filtered, specific_topics_filtered,
      broad_flows_filtered, specific_flows_filtered.
Qed.

(** ** The build never raises *)

Lemma dict_get_list_to_map {V} (l : list (string * V)) (k : string) (dflt : V) :
  dict_get (list_to_map l : gmap string V) k dflt ∈ dflt :: (snd <$> l).
Proof.
  unfold dict_get. induction l as [|[k' v] l IH]; simpl.
  { rewrite lookup_empty. simpl. set_solver. }
  rewrite lookup_insert. case_decide; simpl; set_solver.
Qed.

Lemma hex_to_rgba_broad_colors cat :
  ∃ c, hex_to_rgba (dict_get broad_colors cat "#BDC3C7") "0.6" = Ok c.
Proof.
  generalize (dict_get_list_to_map
    [("Ideological", "#FF6B6B"); ("Financial", "#4ECDC4"); ("Other", "#BDC3C7")]
    cat "#BDC3C7").
  fold broad_colors. generalize (dict_get broad_colors cat "#BDC3C7"). intros v Hv.
  simpl in Hv. rewrite !elem_of_cons in Hv.
  repeat (destruct Hv as [->|Hv]; [eexists; vm_compute; reflexivity|]).
  by apply elem_of_nil in Hv.
Qed.

Lemma hex_to_rgba_topic_colors cat :
  ∃ c, hex_to_rgba (dict_get topic_colors cat "#BDC3C7") "0.6" = Ok c.
Proof.
  generalize (dict_get_list_to_map
    [("Cryptocurrency", "#45B7D1"); ("Money", "#85C1E9"); ("Gambling", "#5DADE2");
     ("Extremist", "#F8C471"); ("Manosphere", "#BB8FCE"); ("Medical", "#F7DC6F");
     ("News", "#D7BDE2"); ("Political", "#EC7063"); ("Religious", "#F9E79F");
     ("Not at-risk", "#BDC3C7")]
    cat "#BDC3C7").
  fold topic_colors. generalize (dict_get topic_colors cat "#BDC3C7"). intros v Hv.
  simpl in Hv. rewrite !elem_of_cons in Hv.
  repeat (destruct Hv as [->|Hv]; [eexists; vm_compute; reflexivity|]).
  by apply elem_of_nil in Hv.
Qed.

Lemma node_mapping_is_Some df proportional cat :
  cat ∈ node_categories df proportional →
  is_Some (node_mapping df proportional !! cat).
Proof. exact (node_mapping_of_is_Some _ _ _ cat). Qed.

Lemma broad_link_is_Ok df proportional row :
  row ∈ broad_flows df proportional →
  ∃ lk, broad_link (node_mapping df proportional) row = Ok lk.
Proof.
  intros [Hs Ht]%broad_flows_labels. unfold broad_link.
  destruct (node_mapping_is_Some df proportional row.1.1) as [s Hs'].
  { apply elem_of_app. by left. }
  destruct (node_mapping_is_Some df proportional row.1.2) as [t Ht'].
  { apply elem_of_app. right. apply elem_of_app. by left. }
  apply getitem_Ok in Hs', Ht'. rewrite Hs', Ht'. simpl.
  case_decide; simpl; [by eexists|].
  destruct (hex_to_rgba_broad_colors row.1.2) as [c ->]. simpl. by eexists.
Qed.

Lemma specific_link_is_Ok df proportional row :
  row ∈ specific_flows df proportional →
  ∃ lk, specific_link (node_mapping df proportional) row = Ok lk.
Proof.
  intros [Hs Ht]%specific_flows_labels. unfold specific_link.
  destruct (node_mapping_is_Some df proportional row.1.1) as [s Hs'].
  { apply elem_of_app. right. apply elem_of_app. by left. }
  destruct (node_mapping_is_Some df proportional row.1.2) as [t Ht'].
  { apply elem_of_app. right. apply elem_of_app. by right. }
  apply getitem_Ok in Hs', Ht'. rewrite Hs', Ht'. simpl.
  case_decide; simpl; [by eexists|].
  destruct (hex_to_rgba_topic_colors row.1.2) as [c ->]. simpl. by eexists.
Qed.

Lemma topic_flows_row df proportional :
  topic_flows df proportional ≠ [] → ∃ r, r ∈ df_filtered df.
Proof.
  intros Hflows. destruct (df_filtered df) as [|r rows] eqn:Hrows.
  - exfalso. apply Hflows. unfold topic_flows. rewrite Hrows.
    destruct proportional; by apply omap_nil.
  - exists r. set_solver.
Qed.

(** The function is total: it returns [None] when no frame was
    appended to [topic_flows], and a figure otherwise; the division by
    the number of primary categories, the subscripts of [node_mapping]
    and the color conversions cannot fail. *)
Lemma create_sankey_diagram_total df proportional :
  (topic_flows df proportional = [] ∧
   create_sankey_diagram df proportional = Ok None) ∨
  (topic_flows df proportional ≠ [] ∧
   ∃ fig, create_sankey_diagram df proportional = Ok (Some fig)).
Proof.
  destruct (decide (topic_flows df proportional = [])) as [Hnil|Hflows].
  { left. split; [done|]. by apply create_sankey_diagram_None. }
  right. split; [done|].
  destruct (topic_flows_row _ _ Hflows) as [r Hr%df_filtered_fameswap_categories].
  assert (∃ sp, py_div (dec 9 10) (Qc_of_nat (length (fameswap_categories df))) = Ok sp)
    as [sp Hsp].
  { unfold py_div. rewrite decide_False; [by eexists|].
    intros H0. destruct (fameswap_categories df) as [|c cs]; [by apply elem_of_nil in Hr|].
    assert (0 < Qc_of_nat (length (c :: cs)))%Qc as Hpos
      by (apply Qc_of_nat_pos; simpl; lia).
    rewrite H0 in Hpos. by apply Qclt_not_eq in Hpos. }
  destruct (rmapM_is_Ok (broad_link (node_mapping df proportional))
              (broad_flows_sorted df proportional)) as [links1 Hl1].
  { apply Forall_forall. intros row Hrow. apply broad_link_is_Ok.
    by rewrite <-broad_flows_sorted_Permutation. }
  destruct (rmapM_is_Ok (specific_link (node_mapping df proportional))
              (specific_flows_sorted df proportional)) as [links2 Hl2].
  { apply Forall_forall. intros row Hrow. apply specific_link_is_Ok.
    by rewrite <-specific_flows_sorted_Permutation. }
  eexists. apply create_sankey_diagram_Some. split; [done|].
  exists sp, links1, links2. by rewrite <-!rmapM_Ok.
Qed.

Lemma omap_not_nil {A B} (f : A → option B) (l : list A) :
  omap f l ≠ [] ↔ ∃ x, x ∈ l ∧ is_Some (f x).
Proof.
  split.
  - intros Hne. destruct (omap f l) as [|y ys] eqn:Hy; [done|].
    assert (y ∈ omap f l) as (x & Hx & Hfx)%list_elem_of_omap
      by (rewrite Hy; apply list_elem_of_here).
    exists x. by rewrite Hfx.
  - intros (x & Hx & [y Hy]) Hnil.
    assert (y ∈ omap f l) as Hin by (apply list_elem_of_omap; eauto).
    rewrite Hnil in Hin. by apply elem_of_nil in Hin.
Qed.

Lemma length_filter_pos {A} (P : A → Prop) `{!∀ x, Decision (P x)} (l : list A) :
  0 < length (filter P l) ↔ ∃ x, x ∈ l ∧ P x.
Proof.
  split.
  - destruct (filter P l) as [|x xs] eqn:Hf; simpl; [lia|]. intros _.
    assert (x ∈ filter P l) as [? ?]%list_elem_of_filter
      by (rewrite Hf; apply list_elem_of_here).
    eauto.
  - intros (x & Hx & HP).
    assert (x ∈ filter P l) as Hin by (by apply list_elem_of_filter).
    destruct (filter P l); [by apply elem_of_nil in Hin|simpl; lia].
Qed.

Lemma flows_of_is_Some (proportional : bool) (df' : DataFrame) (topic_col : Column) :
  is_Some (if proportional then proportional_flows_of df' topic_col
           else binary_flows_of df' topic_col) ↔
  ∃ r, r ∈ df' ∧ (0 < contribution proportional r topic_col)%Qc.
Proof.
  destruct proportional.
  - unfold proportional_flows_of. simpl. rewrite <-length_filter_pos.
    case_decide as H; split; intros H';
      [done|by eexists|by destruct H' as [? ?]|done].
  - unfold binary_flows_of. simpl.
    setoid_rewrite contribution_false_pos. rewrite <-length_filter_pos.
    case_decide as H; split; intros H';
      [done|by eexists|by destruct H' as [? ?]|done].
Qed.

Lemma topic_flows_not_nil df proportional :
  topic_flows df proportional ≠ [] ↔
  ∃ r topic_col, r ∈ df_filtered df ∧ topic_col ∈ topic_columns ∧
                 (0 < contribution proportional r topic_col)%Qc.
Proof.
  unfold topic_flows. destruct proportional; rewrite omap_not_nil.
  - setoid_rewrite (flows_of_is_Some true). naive_solver.
  - setoid_rewrite (flows_of_is_Some false). naive_solver.
Qed.

(** The build is total. It never raises: the division by the number of
    primary categories is guarded by the [return None], every subscript
    of [node_mapping] is a key of it and every color that is converted
    is a well-formed hex color. It returns a figure exactly when some
    row that survives the exclusion contributes to some topic column,
    and [None] otherwise. *)
Theorem create_sankey_diagram_never_raises (df : DataFrame) (proportional : bool) :
  ∃ o, create_sankey_diagram df proportional = Ok o ∧
       (is_Some o ↔
        ∃ r topic_col, r ∈ df_filtered df ∧ topic_col ∈ topic_columns ∧
                       (0 < contribution proportional r topic_col)%Qc).
Proof.
  destruct (create_sankey_diagram_total df proportional)
    as [[Hnil ->]|[Hflows [fig ->]]]; eexists; (split; [done|]);
    rewrite <-topic_flows_not_nil.
  - split; [by intros []|done].
  - split; [done|by eexists].
Qed.

(** ** Conservation of the flows *)

Lemma specific_flows_sum df proportional (P : string * string → Prop)
    `{!∀ k, Decision (P k)} :
  sum_Qc (snd <$> filter (λ g : GroupedFlow, P g.1) (specific_flows df proportional)) =
    sum_Qc ((λ fb : Flow * string, flow_count fb.1)
              <$> filter (λ fb, P (fb.2, flow_specific_topic fb.1))
                    (dropna_broad (all_flows df proportional))).
Proof.
  unfold specific_flows.
  exact (groupby_sum_conservation (merge_sort pair_le) (merge_sort_Permutation _)
           _ _ _ P).
Qed.

Lemma broad_flows_sum_key df proportional (P : string * string → Prop)
    `{!∀ k, Decision (P k)} :
  sum_Qc (snd <$> filter (λ g : GroupedFlow, P g.1) (broad_flows df proportional)) =
    sum_Qc ((λ fb : Flow * string, flow_count fb.1)
              <$> filter (λ fb, P (flow_fameswap_category fb.1, fb.2))
                    (dropna_broad (all_flows df proportional))).
Proof.
  unfold broad_flows.
  exact (groupby_sum_conservation (merge_sort pair_le) (merge_sort_Permutation _)
           _ _ _ P).
Qed.

(** Every level-2 node is balanced: the weights of the edges that enter
    a broad category from the primary categories add up to the weights
    of the edges that leave it towards the specific topics. *)
Theorem broad_category_balance (df : DataFrame) (proportional : bool) (broad_cat : string) :
  sum_Qc (snd <$> filter (λ g : GroupedFlow, g.1.2 = broad_cat)
                    (broad_flows_sorted df proportional)) =
  sum_Qc (snd <$> filter (λ g : GroupedFlow, g.1.1 = broad_cat)
                    (specific_flows_sorted df proportional)).
Proof.
  rewrite broad_flows_sorted_Permutation, specific_flows_sorted_Permutation.
  etrans; [exact (broad_flows_sum_key df proportional (λ k, k.2 = broad_cat))|].
  symmetry.
  etrans; [exact (specific_flows_sum df proportional (λ k, k.1 = broad_cat))|].
  done.
Qed.

Lemma sum_Qc_indicator {A} (P : A → Prop) `{!∀ x, Decision (P x)} (l : list A) :
  sum_Qc ((λ x, if decide (P x) then 1%Qc else 0%Qc) <$> l) =
    Qc_of_nat (length (filter P l)).
Proof.
  induction l as [|x l IH]; [symmetry; apply Qc_of_nat_0|].
  rewrite fmap_cons, sum_Qc_cons, IH, filter_cons.
  case_decide; [|ring].
  change (length (?y :: ?k)) with (1 + length k).
  rewrite Qc_of_nat_add, Qc_of_nat_1. done.
Qed.

(** The contributions of a row with 0/1 indicators add up to 1 when
    some flag is set and to 0 otherwise. *)
Lemma normalized_row_total r :
  binary_row r →
  sum_Qc (normalized r <$> topic_columns) =
    if decide (0 < active_count r) then 1%Qc else 0%Qc.
Proof.
  intros Hbin. rewrite normalized_sum. fold (active_count r).
  destruct (decide (0 < active_count r)) as [Hk|Hk].
  - assert (topic_sums r = Z.of_nat (active_count r)) as HS
      by (by apply binary_sum_count).
    rewrite HS. rewrite decide_True by lia. fold (Qc_of_nat (active_count r)).
    unfold Qcdiv. rewrite Qcmult_1_l. apply Qcmult_inv_r.
    intros H0. apply Qc_of_nat_pos in Hk. rewrite H0 in Hk. by apply Qclt_not_eq in Hk.
  - replace (active_count r) with 0 by lia. rewrite Qc_of_nat_0. ring.
Qed.

(** In the proportional mode, on a table whose surviving rows have 0/1
    indicators, the weights of the level-1→level-2 edges that leave a
    primary category add up to the number of its rows that have at
    least one flag set: every such entity is counted exactly once. *)
Theorem proportional_outgoing_weight (df : DataFrame) (cat : string) :
  Forall binary_row (df_filtered df) →
  sum_Qc (snd <$> filter (λ g : GroupedFlow, g.1.1 = cat) (broad_flows_sorted df true)) =
    Qc_of_nat (length (filter (λ r, fameswap_category r = cat ∧ 0 < active_count r)
                         (df_filtered df))).
Proof.
  intros Hbin. rewrite Forall_forall in Hbin.
  rewrite broad_flows_sorted_Permutation.
  etrans; [exact (broad_flows_sum df true (λ c, c = cat))|].
  transitivity (Qc_of_nat (length (filter (λ r, 0 < active_count r)
                  (filter (λ r, fameswap_category r = cat) (df_filtered df))))).
  - rewrite <-sum_Qc_indicator. apply sum_Qc_fmap_ext.
    intros r [_ Hr]%list_elem_of_filter. exact (normalized_row_total r (Hbin r Hr)).
  - do 2 f_equal. rewrite list_filter_filter. apply list_filter_iff. tauto.
Qed.

Lemma proportional_outgoing_weight_witness :
  sum_Qc (snd <$> filter (λ g : GroupedFlow, g.1.1 = "A")
                    (broad_flows_sorted df_example true)) =
    Qc_of_nat (length (filter (λ r, fameswap_category r = "A" ∧ 0 < active_count r)
                         (df_filtered df_example))).
Proof.
  apply proportional_outgoing_weight.
  apply (bool_decide_unpack _). vm_compute. exact I.
Defined.

Lemma NoDup_topic_labels : NoDup (topic_label <$> topic_columns).
Proof. apply (bool_decide_unpack _). vm_compute. exact I. Qed.

Lemma sum_Qc_select {A} (f : A → string) (S : A → Qc) (l : list A) (x : A) :
  NoDup (f <$> l) → x ∈ l →
  sum_Qc ((λ y, if decide (f y = f x) then S y else 0%Qc) <$> l) = S x.
Proof.
  induction l as [|y l IH]; intros Hnd Hx; [by apply elem_of_nil in Hx|].
  rewrite fmap_cons in Hnd. apply NoDup_cons in Hnd as [Hy Hnd].
  rewrite fmap_cons, sum_Qc_cons. apply elem_of_cons in Hx as [->|Hx].
  - rewrite decide_True by done. rewrite sum_Qc_zero; [ring|].
    intros z Hz. rewrite decide_False; [done|]. intros Heq. apply Hy.
    rewrite <-Heq. by apply list_elem_of_fmap_2.
  - rewrite decide_False.
    + rewrite IH by done. ring.
    + intros Heq. apply Hy. rewrite Heq. by apply list_elem_of_fmap_2.
Qed.

Lemma sum_filter_const {A} (f : A → Qc) (p : Prop) `{!Decision p} (l : list A) :
  sum_Qc (f <$> filter (λ _, p) l) = if decide p then sum_Qc (f <$> l) else 0%Qc.
Proof.
  induction l as [|x l IH]; [by case_decide|].
  rewrite filter_cons. destruct (decide p) as [Hp|Hp].
  - rewrite !fmap_cons, !sum_Qc_cons, IH. done.
  - done.
Qed.

(** The weight that enters a specific topic from the broad categories
    is the total contribution of the rows to the column of that topic;
    in the binary mode it is the number of surviving rows on which the
    flag of the topic is set. *)
Theorem specific_topic_weight (df : DataFrame) (proportional : bool)
    (i : nat) (topic_col : Column) :
  topic_columns !! i = Some topic_col →
  sum_Qc (snd <$> filter (λ g : GroupedFlow, g.1.2 = topic_label topic_col)
                    (specific_flows_sorted df proportional)) =
    sum_Qc ((λ r, contribution proportional r topic_col) <$> df_filtered df) ∧
  sum_Qc ((λ r, contribution false r topic_col) <$> df_filtered df) =
    Qc_of_nat (length (filter (λ r, topic_col.2 r = 1%Z) (df_filtered df))).
Proof.
  intros Hcol%list_elem_of_lookup_2. split.
  - rewrite specific_flows_sorted_Permutation.
    etrans; [exact (specific_flows_sum df proportional
                      (λ k, k.2 = topic_label topic_col))|].
    transitivity (sum_Qc (flow_count <$>
                    filter (λ f, flow_specific_topic f = topic_label topic_col)
                      (all_flows df proportional))).
    { rewrite <-(dropna_broad_fst (all_flows df proportional))
        at 2 by apply all_flows_broad_Some.
      by rewrite filter_fmap, <-list_fmap_compose. }
    etrans; [exact (@all_flows_sum df proportional
                      (λ _ t, t = topic_label topic_col)
                      (λ _ t, String.eq_dec t (topic_label topic_col)))|].
    rewrite <-(sum_Qc_select topic_label
                 (λ c, sum_Qc ((λ r, contribution proportional r c) <$> df_filtered df))
                 topic_columns topic_col NoDup_topic_labels Hcol).
    apply sum_Qc_fmap_ext. intros c _.
    exact (sum_filter_const (λ r, contribution proportional r c)
             (topic_label c = topic_label topic_col) (df_filtered df)).
  - rewrite <-sum_Qc_indicator. done.
Qed.

Lemma specific_topic_weight_witness :
  sum_Qc (snd <$> filter (λ g : GroupedFlow, g.1.2 = "Political")
                    (specific_flows_sorted df_example false)) = Qc_of_nat 2.
Proof.
  etrans; [apply (proj1 (specific_topic_weight df_example false 7
                           ("political_content", political_content) eq_refl))|].
  etrans; [apply (proj2 (specific_topic_weight df_example false 7
                           ("political_content", political_content) eq_refl))|].
  reflexivity.
Defined.

(** ** Shape of the figure *)

(** The four node lists have one entry per category of the three
    levels, the four link lists one entry per aggregated flow, and the
    source and the target of every link are positions of the node
    lists, also when a label stands at two levels. *)
Theorem figure_shape (df : DataFrame) (proportional : bool) (fig : Sankey) :
  create_sankey_diagram df proportional = Ok (Some fig) →
  let n := length (node_categories df proportional) in
  let m := length (broad_flows df proportional)
           + length (specific_flows df proportional) in
  (length (fig_label fig) = n ∧ length (fig_color fig) = n ∧
   length (fig_x fig) = n ∧ length (fig_y fig) = n) ∧
  (length (fig_source fig) = m ∧ length (fig_target fig) = m ∧
   length (fig_value fig) = m ∧ length (fig_link_color fig) = m) ∧
  Forall (λ s, s < n) (fig_source fig) ∧
  Forall (λ t, t < n) (fig_target fig).
Proof.
  intros (_ & sp & links1 & links2 & _ & Hl1 & Hl2 & ->)%create_sankey_diagram_Some.
  simpl. rewrite !length_fmap, length_nodes_of, length_app.
  rewrite <-(Forall2_length _ _ _ Hl1), <-(Forall2_length _ _ _ Hl2).
  rewrite (Permutation_length (broad_flows_sorted_Permutation df proportional)).
  rewrite (Permutation_length (specific_flows_sorted_Permutation df proportional)).
  split_and!; try done.
  - apply Forall_fmap, Forall_app. split; apply Forall_forall; intros lk Hlk;
      apply list_elem_of_lookup in Hlk as [j Hj].
    + destruct (Forall2_lookup_r _ _ _ _ _ Hl1 Hj) as (row & _ & Hlink).
      apply broad_link_Ok in Hlink as (Hs%node_mapping_lookup_Some & _).
      by apply lookup_lt_Some in Hs.
    + destruct (Forall2_lookup_r _ _ _ _ _ Hl2 Hj) as (row & _ & Hlink).
      apply specific_link_Ok in Hlink as (Hs%node_mapping_lookup_Some & _).
      by apply lookup_lt_Some in Hs.
  - apply Forall_fmap, Forall_app. split; apply Forall_forall; intros lk Hlk;
      apply list_elem_of_lookup in Hlk as [j Hj].
    + destruct (Forall2_lookup_r _ _ _ _ _ Hl1 Hj) as (row & _ & Hlink).
      apply broad_link_Ok in Hlink as (_ & Ht%node_mapping_lookup_Some & _).
      by apply lookup_lt_Some in Ht.
    + destruct (Forall2_lookup_r _ _ _ _ _ Hl2 Hj) as (row & _ & Hlink).
      apply specific_link_Ok in Hlink as (_ & Ht%node_mapping_lookup_Some & _).
      by apply lookup_lt_Some in Ht.
Qed.

Lemma figure_shape_witness :
  ∃ fig, create_sankey_diagram df_collision false = Ok (Some fig) ∧
         Forall (λ s, s < length (node_categories df_collision false)) (fig_source fig).
Proof.
  eexists. split; [vm_compute; reflexivity|].
  apply (figure_shape df_collision false). vm_compute. reflexivity.
Defined.

(** ** The dictionary of node indices keeps the last position *)

Lemma assign_indices_app cats1 cats2 st :
  assign_indices (cats1 ++ cats2) st = assign_indices cats2 (assign_indices cats1 st).
Proof. unfold assign_indices. apply foldl_app. Qed.

Lemma assign_indices_last cats k i :
  (assign_indices cats (∅, 0)).1 !! k = Some i ↔
    cats !! i = Some k ∧ ∀ j, i < j → cats !! j ≠ Some k.
Proof.
  revert i. induction cats as [|c cats IH] using rev_ind; intros i.
  { simpl. rewrite lookup_empty. naive_solver. }
  rewrite assign_indices_app. simpl.
  rewrite assign_indices_snd. simpl. rewrite lookup_insert.
  destruct (decide (c = k)) as [->|Hck].
  - split.
    + intros [= <-]. split; [apply list_lookup_middle; done|].
      intros j Hj. rewrite lookup_ge_None_2; [done|]. rewrite length_app. simpl. lia.
    + intros [Hi Hlast]. f_equal.
      assert (i < length (cats ++ [k])) as Hlt by (by eapply lookup_lt_Some).
      rewrite length_app in Hlt. simpl in Hlt.
      destruct (decide (i = length cats)) as [->|Hne]; [done|].
      exfalso. apply (Hlast (length cats)); [lia|]. by apply list_lookup_middle.
  - rewrite IH. split.
    + intros [Hi Hlast]. split; [by apply lookup_app_l_Some|].
      intros j Hj [Hj'|[Hge Hj']]%lookup_app_Some; [by eapply Hlast|].
      destruct (j - length cats) as [|?]; simpl in Hj'; [congruence|done].
    + intros [[Hi|[Hge Hi]]%lookup_app_Some Hlast].
      * split; [done|]. intros j Hj Hj'. apply (Hlast j Hj).
        by apply lookup_app_l_Some.
      * destruct (i - length cats) as [|?]; simpl in Hi; [congruence|done].
Qed.

(** [node_mapping] sends a label to the last position at which it
    stands in the concatenation of the three category lists: an entry
    written by an earlier loop is overwritten by a later one. *)
Theorem node_mapping_last_position (df : DataFrame) (proportional : bool)
    (label : string) (i : nat) :
  node_mapping df proportional !! label = Some i ↔
    node_categories df proportional !! i = Some label ∧
    ∀ j, i < j → node_categories df proportional !! j ≠ Some label.
Proof.
  unfold node_mapping, node_mapping_of, node_categories.
  rewrite <-!assign_indices_app. apply assign_indices_last.
Qed.

(** ** Row positions *)

Lemma Qc_of_nat_lt i n : i < n → (Qc_of_nat i < Qc_of_nat n)%Qc.
Proof. intros Hi. unfold Qc_of_nat. apply (proj1 (Z2Qc_inj_lt _ _)). lia. Qed.

Lemma Qc_of_nat_nonneg i : (0 ≤ Qc_of_nat i)%Qc.
Proof.
  unfold Qc_of_nat. rewrite <-Z2Qc_inj_0. apply (proj1 (Z2Qc_inj_le _ _)). lia.
Qed.

Lemma py_div_Ok a b q : py_div a b = Ok q ↔ b ≠ 0%Qc ∧ q = (a / b)%Qc.
Proof. unfold py_div. case_decide; naive_solver. Qed.

(** The offsets of the level-1 rows stay inside the 90% span. *)
Lemma spacing_bound (i n : nat) :
  i < n →
  (0 ≤ Qc_of_nat i * (dec 9 10 / Qc_of_nat n))%Qc ∧
  (Qc_of_nat i * (dec 9 10 / Qc_of_nat n) < dec 9 10)%Qc.
Proof.
  intros Hi.
  assert (0 < Qc_of_nat n)%Qc as Hn by (apply Qc_of_nat_pos; lia).
  assert (0 < dec 9 10 / Qc_of_nat n)%Qc as Hsp.
  { unfold Qcdiv. apply Qcmult_pos_pos; [reflexivity|by apply Qcinv_pos]. }
  split.
  - rewrite <-(Qcmult_0_l (dec 9 10 / Qc_of_nat n)).
    apply Qcmult_le_mono_nonneg_r; [by apply Qclt_le_weak|apply Qc_of_nat_nonneg].
  - rewrite <-(Qcmult_div_r (dec 9 10) (Qc_of_nat n)) at 2
      by (by apply not_symmetry, Qclt_not_eq).
    apply Qcmult_lt_mono_pos_r; [done|]. by apply Qc_of_nat_lt.
Qed.

Lemma specific_y_in_range cat :
  (0 < dict_get specific_y_positions cat (dec 5 10))%Qc ∧
  (dict_get specific_y_positions cat (dec 5 10) < 1)%Qc.
Proof.
  generalize (dict_get_list_to_map
    [("Political", dec 1 10); ("News", dec 2 10); ("Religious", dec 3 10);
     ("Medical", dec 4 10); ("Manosphere", dec 45 100); ("Extremist", dec 5 10);
     ("Cryptocurrency", dec 6 10); ("Money", dec 68 100); ("Gambling", dec 75 100);
     ("Not at-risk", dec 1 10000)]
    cat (dec 5 10)).
  fold specific_y_positions.
  generalize (dict_get specific_y_positions cat (dec 5 10)). intros y Hy.
  simpl in Hy. rewrite !elem_of_cons in Hy.
  repeat (destruct Hy as [->|Hy]; [by split|]).
  by apply elem_of_nil in Hy.
Qed.

(** Every node has a y position strictly between 0 and 1. The level-1
    nodes stand at [0.05 + i * 0.9 / n], with [n] the number of primary
    categories, so they are evenly spaced from top to bottom in the
    order of the category list. *)
Theorem node_y_positions (df : DataFrame) (proportional : bool) (fig : Sankey) :
  create_sankey_diagram df proportional = Ok (Some fig) →
  Forall (λ y, (0 < y)%Qc ∧ (y < 1)%Qc) (fig_y fig) ∧
  (∀ i, i < length (fameswap_categories df) →
        fig_y fig !! i =
          Some (dec 5 100 + Qc_of_nat i
                             * (dec 9 10 / Qc_of_nat (length (fameswap_categories df))))%Qc) ∧
  (∀ i j yi yj,
      i < j → j < length (fameswap_categories df) →
      fig_y fig !! i = Some yi → fig_y fig !! j = Some yj → (yi < yj)%Qc).
Proof.
  intros (_ & sp & links1 & links2 & [Hn Hsp]%py_div_Ok & _ & _ & ->)
    %create_sankey_diagram_Some.
  simpl. rewrite <-Hsp.
  assert (∀ i, i < length (fameswap_categories df) →
            (node_y <$> nodes_of df proportional sp) !! i =
              Some (dec 5 100 + Qc_of_nat i * sp)%Qc) as Hlevel1.
  { intros i Hi.
    destruct (lookup_lt_is_Some_2 (fameswap_categories df) i Hi) as [cat Hcat].
    assert (node_categories df proportional !! i = Some cat) as Hcat'
      by (by apply lookup_app_l_Some).
    rewrite list_lookup_fmap, (nodes_of_lookup _ _ _ _ _ Hcat').
    unfold node_level. by rewrite decide_True. }
  assert (0 < sp)%Qc as Hpos.
  { rewrite Hsp. unfold Qcdiv. apply Qcmult_pos_pos; [reflexivity|].
    apply Qcinv_pos.
    apply Qcle_lt_trans with (Qc_of_nat 0); [by rewrite Qc_of_nat_0|].
    apply Qc_of_nat_lt.
    destruct (length (fameswap_categories df)); [|lia].
    exfalso. apply Hn. apply Qc_of_nat_0. }
  split_and!.
  - apply Forall_fmap, Forall_forall. intros nd [i Hi]%list_elem_of_lookup.
    assert (i < length (node_categories df proportional)) as Hlt.
    { rewrite <-(length_nodes_of _ _ sp). by eapply lookup_lt_Some. }
    destruct (lookup_lt_is_Some_2 _ _ Hlt) as [cat Hcat].
    rewrite (nodes_of_lookup _ _ _ _ _ Hcat) in Hi. apply (inj Some) in Hi.
    rewrite <-Hi. clear Hi nd. unfold node_level.
    destruct (decide (i < length (fameswap_categories df))) as [H1|H1].
    + destruct (spacing_bound i _ H1) as [Hlo Hhi]. rewrite <-Hsp in Hlo, Hhi.
      unfold compose, fameswap_node, node_y. split.
      * apply Qclt_le_trans with (dec 5 100 + 0)%Qc; [reflexivity|].
        by apply Qcplus_le_mono_l.
      * apply Qclt_trans with (dec 5 100 + dec 9 10)%Qc; [|reflexivity].
        by apply Qcplus_lt_mono_l.
    + case_decide.
      * unfold compose, broad_node. repeat case_decide; by split.
      * unfold compose, specific_node. case_decide; [by split|].
        apply specific_y_in_range.
  - done.
  - intros i j yi yj Hij Hj Hi Hj'.
    rewrite Hlevel1 in Hi by lia. rewrite Hlevel1 in Hj' by lia.
    apply (inj Some) in Hi, Hj'. rewrite <-Hi, <-Hj'.
    apply Qcplus_lt_mono_l. apply Qcmult_lt_mono_pos_r; [done|].
    by apply Qc_of_nat_lt.
Qed.

Lemma node_y_positions_witness :
  ∃ fig, create_sankey_diagram df_example true = Ok (Some fig) ∧
         Forall (λ y, (0 < y)%Qc ∧ (y < 1)%Qc) (fig_y fig).
Proof.
  eexists. split; [vm_compute; reflexivity|].
  apply (node_y_positions df_example true). vm_compute. reflexivity.
Defined.

(** ** [hex_to_rgba] *)

Lemma hex_digit_lt c d : hex_digit c = Some d → (d < 16)%N.
Proof.
  unfold hex_digit. repeat case_decide; intros [= <-]; lia.
Qed.

Lemma int16_Ok_or_ValueError s :
  (∃ n, int16 s = Ok n) ∨ int16 s = Raise ValueError.
Proof.
  destruct s as [|c1 [|c2 [|c3 s]]]; simpl; [by right| | |by right].
  - destruct (hex_digit c1); [left; by eexists|by right].
  - destruct (hex_digit c1), (hex_digit c2); try (by right). left. by eexists.
Qed.

Lemma substring_short s :
  String.length s < 5 → String.substring 4 2 s = "".
Proof.
  destruct s as [|? [|? [|? [|? [|? s]]]]]; simpl; intros; try done. lia.
Qed.

(** A color of six hex digits, after any number of leading ['#'] and
    whatever follows the sixth digit, is converted into the text
    [rgba(r, g, b, alpha)] with the three components in decimal, each at
    most 255. *)
Theorem hex_to_rgba_six_digits (hex_color alpha rest : string)
    (c1 c2 c3 c4 c5 c6 : ascii) (d1 d2 d3 d4 d5 d6 : N) :
  lstrip_hash hex_color
    = String c1 (String c2 (String c3 (String c4 (String c5 (String c6 rest))))) →
  hex_digit c1 = Some d1 → hex_digit c2 = Some d2 → hex_digit c3 = Some d3 →
  hex_digit c4 = Some d4 → hex_digit c5 = Some d5 → hex_digit c6 = Some d6 →
  hex_to_rgba hex_color alpha =
    Ok ("rgba(" +:+ pretty (16 * d1 + d2)%N +:+ ", " +:+ pretty (16 * d3 + d4)%N
          +:+ ", " +:+ pretty (16 * d5 + d6)%N +:+ ", " +:+ alpha +:+ ")") ∧
  (16 * d1 + d2 ≤ 255)%N ∧ (16 * d3 + d4 ≤ 255)%N ∧ (16 * d5 + d6 ≤ 255)%N.
Proof.
  intros Hstrip H1 H2 H3 H4 H5 H6. split.
  - unfold hex_to_rgba. rewrite Hstrip. simpl.
    rewrite H1, H2. simpl. rewrite H3, H4. simpl. rewrite H5, H6.
    assert (String.substring 0 0 rest = "") as -> by (by destruct rest). done.
  - apply hex_digit_lt in H1, H2, H3, H4, H5, H6. lia.
Qed.

Lemma hex_to_rgba_six_digits_witness :
  hex_to_rgba "##4ECDC4;" "0.6" = Ok "rgba(78, 205, 196, 0.6)".
Proof.
  apply (hex_to_rgba_six_digits "##4ECDC4;" "0.6" ";"
           "4" "E" "C" "D" "C" "4" 4 14 12 13 12 4); reflexivity.
Defined.

(** A color with fewer than five characters after the leading ['#'],
    such as the empty string or a three-digit shorthand, is rejected
    with [ValueError]. *)
Theorem hex_to_rgba_short (hex_color alpha : string) :
  String.length (lstrip_hash hex_color) < 5 →
  hex_to_rgba hex_color alpha = Raise ValueError.
Proof.
  intros Hlen. unfold hex_to_rgba. simpl.
  rewrite (substring_short _ Hlen).
  destruct (int16_Ok_or_ValueError (String.substring 0 2 (lstrip_hash hex_color)))
    as [[r ->]| ->]; [|done]. simpl.
  destruct (int16_Ok_or_ValueError (String.substring 2 2 (lstrip_hash hex_color)))
    as [[g ->]| ->]; [|done]. done.
Qed.

Lemma hex_to_rgba_short_witness : hex_to_rgba "#FFF" "0.6" = Raise ValueError.
Proof. apply hex_to_rgba_short. vm_compute. lia. Defined.

(** ** The summary of the accounts *)

Lemma zip_with_orb_fmap {A} (f g : A → bool) (l : list A) :
  zip_with orb (f <$> l) (g <$> l) = (λ x, f x || g x) <$> l.
Proof. induction l as [|x l IH]; [done|]. simpl. f_equal. exact IH. Qed.

Lemma mask_rows_fmap (h : Row → bool) (df : DataFrame) :
  mask_rows df (h <$> df) = filter (λ r, h r = true) df.
Proof.
  unfold mask_rows. induction df as [|r df IH]; [done|].
  rewrite fmap_cons. simpl zip. rewrite !filter_cons. simpl.
  destruct (decide (h r = true)); simpl; [f_equal|]; exact IH.
Qed.

Lemma series_sum_fmap {A} (h : A → bool) (l : list A) :
  series_sum (h <$> l) = length (filter (λ x, h x = true) l).
Proof. unfold series_sum. by rewrite filter_fmap, length_fmap. Qed.

Lemma series_mean_fmap {A} (h : A → bool) (l : list A) :
  series_mean (h <$> l) =
    if decide (length l = 0) then None
    else Some (Qc_of_nat (length (filter (λ x, h x = true) l)) / Qc_of_nat (length l))%Qc.
Proof.
  unfold series_mean. rewrite series_sum_fmap, length_fmap.
  destruct l; [done|]. repeat case_decide; done.
Qed.

Lemma length_filter_complement {A} (P : A → Prop) `{!∀ x, Decision (P x)} (l : list A) :
  length (filter (λ x, ¬P x) l) + length (filter P l) = length l.
Proof.
  rewrite <-(Permutation_length (filter_app_complement P l)), length_app. lia.
Qed.

Lemma length_filter_mono {A} (P Q : A → Prop)
    `{!∀ x, Decision (P x), !∀ x, Decision (Q x)} (l : list A) :
  (∀ x, P x → Q x) → (length (filter P l) ≤ length (filter Q l))%nat.
Proof.
  intros HPQ. rewrite <-(list_filter_filter_l P Q l HPQ). apply length_filter.
Qed.

Lemma length_filter_or {A} (P Q : A → Prop)
    `{!∀ x, Decision (P x), !∀ x, Decision (Q x)} (l : list A) :
  (length (filter (λ x, P x ∨ Q x) l) ≤ length (filter P l) + length (filter Q l))%nat.
Proof.
  induction l as [|x l IH]; [done|]. rewrite !filter_cons.
  destruct (decide (P x)), (decide (Q x)); repeat case_decide; simpl; try lia; tauto.
Qed.

(** The counts of the summary. The accounts with neither kind of
    content and the accounts of the subset with either kind partition
    the table; each kind has at most as many accounts as the subset and
    together they cover it, so the two percentages within the subset add
    up to at least 100; every percentage is the count over the size of
    its table, and is undefined (NaN) on an empty table. *)
Theorem summary_counts (df : DataFrame) :
  let s := summary df in
  neither_count s + subset_size s = total_accounts s ∧
  (ideological_count s ≤ subset_size s)%nat ∧
  (financial_count s ≤ subset_size s)%nat ∧
  (subset_size s ≤ ideological_count s + financial_count s)%nat ∧
  neither_percentage s =
    (if decide (total_accounts s = 0) then None
     else Some (Qc_of_nat (neither_count s) / Qc_of_nat (total_accounts s)
                * Qc_of_Z 100)%Qc) ∧
  ideological_pct_within s =
    (if decide (subset_size s = 0) then None
     else Some (Qc_of_nat (ideological_count s) / Qc_of_nat (subset_size s)
                * Qc_of_Z 100)%Qc) ∧
  financial_pct_within s =
    (if decide (subset_size s = 0) then None
     else Some (Qc_of_nat (financial_count s) / Qc_of_nat (subset_size s)
                * Qc_of_Z 100)%Qc).
Proof.
  unfold summary, any_axis1. simpl.
  set (I := λ r : Row, bool_decide (Exists (λ c : Column, c.2 r ≠ 0%Z) ideological_columns)).
  set (F := λ r : Row, bool_decide (Exists (λ c : Column, c.2 r ≠ 0%Z) financial_columns)).
  rewrite !zip_with_orb_fmap, <-list_fmap_compose, !mask_rows_fmap.
  rewrite !series_sum_fmap, !series_mean_fmap.
  assert (filter (λ r, (negb ∘ (λ x, I x || F x)) r = true) df
          = filter (λ r, ¬ (I r || F r = true)) df) as Hneg.
  { apply list_filter_iff. intros r. simpl. destruct (I r || F r); naive_solver. }
  rewrite !Hneg.
  assert (filter (λ r, I r = true) (filter (λ r, I r || F r = true) df)
          = filter (λ r, I r = true) df) as HI.
  { apply list_filter_filter_l. intros r ->. done. }
  assert (filter (λ r, F r = true) (filter (λ r, I r || F r = true) df)
          = filter (λ r, F r = true) df) as HF.
  { apply list_filter_filter_l. intros r ->. by destruct (I r). }
  rewrite HI, HF. split_and!; try done.
  - apply length_filter_complement.
  - apply length_filter_mono. intros r ->. done.
  - apply length_filter_mono. intros r ->. by destruct (I r).
  - etrans; [|apply (length_filter_or (λ r, I r = true) (λ r, F r = true))].
    apply length_filter_mono. intros r. destruct (I r), (F r); naive_solver.
  - by case_decide.
  - by case_decide.
  - by case_decide.
Qed.

(** ** The order of the edges *)

Global Instance code_le_total : Total code_le.
Proof. intros [x|] [y|]; simpl; [lia|auto..]. Qed.

Global Instance code_le_trans : Transitive code_le.
Proof. intros [x|] [y|] [z|]; simpl; try done; lia. Qed.

Global Instance flow_key_le_total s t : Total (flow_key_le s t).
Proof.
  intros f g. unfold flow_key_le. simpl.
  destruct (total code_le (categorical_code s f.1.1) (categorical_code s g.1.1)) as [H1|H1],
           (total code_le (categorical_code t f.1.2) (categorical_code t g.1.2)) as [H2|H2];
    destruct (decide (code_le (categorical_code s g.1.1) (categorical_code s f.1.1)));
    destruct (decide (code_le (categorical_code s f.1.1) (categorical_code s g.1.1)));
    tauto.
Qed.

Global Instance flow_key_le_trans s t : Transitive (flow_key_le s t).
Proof.
  intros f g h [Hfg Hfg'] [Hgh Hgh']. split; [by etrans|].
  intros Hhf. etrans; [apply Hfg'|apply Hgh']; by etrans.
Qed.

Lemma categorical_code_Some categories v i :
  categorical_code categories v = Some i ↔
    categories !! i = Some v ∧ ∀ j, j < i → categories !! j ≠ Some v.
Proof.
  unfold categorical_code. split.
  - intros ([i' x] & Hfind & [= ->])%fmap_Some.
    apply list_find_Some in Hfind as (Hi & -> & Hlt). split; [done|].
    intros j Hj Hjv. by apply (Hlt j v).
  - intros [Hi Hlt]. apply fmap_Some. exists (i, v). split; [|done].
    apply list_find_Some. split_and!; [done..|]. intros j y Hj Hji ->.
    by apply (Hlt j).
Qed.

(** The edges are emitted in the order of the category lists. Each of
    the two loops runs over its flows sorted by the position of the
    source label in its list, then by the position of the target label;
    no two flows of a loop have the same pair of labels, and every label
    of a flow has a position in its list. *)
Theorem edges_sorted (df : DataFrame) (proportional : bool) :
  (StronglySorted (flow_key_le (fameswap_categories df)
                     (broad_category_list df proportional))
     (broad_flows_sorted df proportional) ∧
   NoDup (fst <$> broad_flows_sorted df proportional) ∧
   Forall (λ g : GroupedFlow,
             is_Some (categorical_code (fameswap_categories df) g.1.1) ∧
             is_Some (categorical_code (broad_category_list df proportional) g.1.2))
     (broad_flows_sorted df proportional)) ∧
  (StronglySorted (flow_key_le (broad_category_list df proportional)
                     (specific_topics df proportional))
     (specific_flows_sorted df proportional) ∧
   NoDup (fst <$> specific_flows_sorted df proportional) ∧
   Forall (λ g : GroupedFlow,
             is_Some (categorical_code (broad_category_list df proportional) g.1.1) ∧
             is_Some (categorical_code (specific_topics df proportional) g.1.2))
     (specific_flows_sorted df proportional)).
Proof.
  assert (∀ (cats : list string) v, v ∈ cats → is_Some (categorical_code cats v)) as Hcode.
  { intros cats v Hv. unfold categorical_code. apply fmap_is_Some.
    by apply (list_find_elem_of _ _ v). }
  split; split_and!.
  - apply StronglySorted_merge_sort; apply _.
  - rewrite broad_flows_sorted_Permutation.
    apply (NoDup_groupby_sum_keys _ (merge_sort_Permutation _)).
  - apply Forall_forall. intros g Hg.
    rewrite broad_flows_sorted_Permutation in Hg.
    apply broad_flows_labels in Hg as [??]. split; by apply Hcode.
  - apply StronglySorted_merge_sort; apply _.
  - rewrite specific_flows_sorted_Permutation.
    apply (NoDup_groupby_sum_keys _ (merge_sort_Permutation _)).
  - apply Forall_forall. intros g Hg.
    rewrite specific_flows_sorted_Permutation in Hg.
    apply specific_flows_labels in Hg as [??]. split; by apply Hcode.
Qed.

Lemma Forall2_fmap_eq {A B C} (f : A → C) (g : B → C) (l : list A) (k : list B) :
  Forall2 (λ x y, g y = f x) l k → g <$> k = f <$> l.
Proof. induction 1 as [|x y l k Hxy _ IH]; [done|]. by rewrite !fmap_cons, Hxy, IH. Qed.

(** The weights of the edges of a built figure are the counts of the
    two sorted flow sets, one edge per flow and in their order: first
    the level-1→level-2 flows, then the level-2→level-3 flows. *)
Theorem figure_values (df : DataFrame) (proportional : bool) (fig : Sankey) :
  create_sankey_diagram df proportional = Ok (Some fig) →
  fig_value fig = (snd <$> broad_flows_sorted df proportional)
                  ++ (snd <$> specific_flows_sorted df proportional).
Proof.
  intros (_ & sp & links1 & links2 & _ & Hl1 & Hl2 & ->)%create_sankey_diagram_Some.
  simpl. rewrite fmap_app. f_equal; apply Forall2_fmap_eq.
  - eapply Forall2_impl; [exact Hl1|]. intros row lk Hlink.
    by apply broad_link_Ok in Hlink as (_ & _ & ? & _).
  - eapply Forall2_impl; [exact Hl2|]. intros row lk Hlink.
    by apply specific_link_Ok in Hlink as (_ & _ & ? & _).
Qed.

Lemma figure_values_witness :
  ∃ fig, create_sankey_diagram df_example true = Ok (Some fig) ∧
         fig_value fig = (snd <$> broad_flows_sorted df_example true)
                         ++ (snd <$> specific_flows_sorted df_example true).
Proof.
  eexists. split; [vm_compute; reflexivity|].
  apply (figure_values df_example true). vm_compute. reflexivity.
Defined.

(** ** Which nodes exist *)

Lemma all_flows_intro df proportional r (topic_col : Column) :
  r ∈ df_filtered df → topic_col ∈ topic_columns →
  (0 < contribution proportional r topic_col)%Qc →
  ∃ f, f ∈ all_flows df proportional ∧
       flow_fameswap_category f = fameswap_category r ∧
       flow_specific_topic f = topic_label topic_col ∧
       flow_broad_category f = topic_to_broad !! topic_label topic_col.
Proof.
  intros Hr Hcol Hpos.
  destruct (groupby_sum_key_intro sorted fameswap_category
              (λ r, contribution proportional r topic_col)
              (filter (λ r, (0 < contribution proportional r topic_col)%Qc) (df_filtered df))
              r sorted_Permutation) as (g & Hg & Hkey).
  { by apply list_elem_of_filter. }
  eexists {| flow_fameswap_category := g.1; flow_count := g.2;
             flow_specific_topic := topic_label topic_col;
             flow_broad_category := topic_to_broad !! topic_label topic_col |}.
  split; [|by rewrite Hkey].
  unfold all_flows. rewrite topic_flows_concat.
  apply list_elem_of_fmap.
  exists {| tf_fameswap_category := g.1; tf_count := g.2;
            tf_specific_topic := topic_label topic_col |}.
  split; [done|]. apply elem_of_concat.
  exists (topic_frame proportional (df_filtered df) topic_col).
  split; [by apply list_elem_of_fmap_2|].
  rewrite topic_frame_spec. unfold mk_topic_flows.
  apply list_elem_of_fmap. exists g. split; [done|]. done.
Qed.

Lemma all_flows_elim df proportional f :
  f ∈ all_flows df proportional →
  ∃ r topic_col,
    r ∈ df_filtered df ∧ topic_col ∈ topic_columns ∧
    (0 < contribution proportional r topic_col)%Qc ∧
    flow_fameswap_category f = fameswap_category r ∧
    flow_specific_topic f = topic_label topic_col ∧
    flow_broad_category f = topic_to_broad !! topic_label topic_col.
Proof.
  intros (topic_col & tf & Hcol & Htf & -> & _ & -> & ->)%elem_of_all_flows.
  apply elem_of_topic_frame in Htf as [_ Hg].
  apply (groupby_sum_key_inv _ _ _ _ _ sorted_Permutation) in Hg as (r & Hr & Hkey).
  apply list_elem_of_filter in Hr as [Hpos Hr]. simpl in Hkey.
  exists r, topic_col. by rewrite Hkey.
Qed.

(** The nodes of the three levels. The level-1 nodes are the primary
    categories of the table other than "Beauty & Makeup", whether or
    not a row of the category has a flag. A broad category, and a
    specific topic, is a node exactly when some row that survives the
    exclusion contributes to a topic column mapped to it. *)
Theorem node_sets (df : DataFrame) (proportional : bool) (label : string) :
  (label ∈ fameswap_categories df ↔
     label ≠ "Beauty & Makeup" ∧ ∃ r, r ∈ df ∧ fameswap_category r = label) ∧
  (label ∈ broad_category_list df proportional ↔
     ∃ r topic_col,
       r ∈ df_filtered df ∧ topic_col ∈ topic_columns ∧
       (0 < contribution proportional r topic_col)%Qc ∧
       topic_to_broad !! topic_label topic_col = Some label) ∧
  (label ∈ specific_topics df proportional ↔
     ∃ r topic_col,
       r ∈ df_filtered df ∧ topic_col ∈ topic_columns ∧
       (0 < contribution proportional r topic_col)%Qc ∧
       topic_label topic_col = label).
Proof.
  split_and!.
  - apply elem_of_fameswap_categories.
  - unfold broad_category_list.
    rewrite elem_of_get_ordered_list, elem_of_unique, list_elem_of_fmap. split.
    + intros (g & -> & Hg).
      apply (groupby_sum_key_inv _ _ _ _ _ (merge_sort_Permutation _)) in Hg
        as (fb & [Hfb Hb]%elem_of_dropna_broad & <-).
      apply all_flows_elim in Hfb as (r & c & Hr & Hc & Hpos & _ & _ & Hbroad).
      exists r, c. simpl. by rewrite <-Hbroad.
    + intros (r & c & Hr & Hc & Hpos & Hbroad).
      destruct (all_flows_intro df proportional r c Hr Hc Hpos)
        as (f & Hf & _ & _ & Hfb).
      destruct (groupby_sum_key_intro (merge_sort pair_le)
                  (λ fb : Flow * string, (flow_fameswap_category fb.1, fb.2))
                  (λ fb, flow_count fb.1) (dropna_broad (all_flows df proportional))
                  (f, label) (merge_sort_Permutation _)) as (g & Hg & Hkey).
      { apply elem_of_dropna_broad. simpl. split; [done|]. by rewrite Hfb. }
      exists g. split; [by rewrite Hkey|done].
  - unfold specific_topics.
    rewrite elem_of_get_ordered_list, elem_of_unique, list_elem_of_fmap. split.
    + intros (g & -> & Hg).
      apply (groupby_sum_key_inv _ _ _ _ _ (merge_sort_Permutation _)) in Hg
        as (fb & [Hfb Hb]%elem_of_dropna_broad & <-).
      apply all_flows_elim in Hfb as (r & c & Hr & Hc & Hpos & _ & Hspec & _).
      exists r, c. simpl. done.
    + intros (r & c & Hr & Hc & Hpos & <-).
      destruct (all_flows_intro df proportional r c Hr Hc Hpos)
        as (f & Hf & _ & Hspec & Hfb).
      assert (is_Some (flow_broad_category f)) as [b Hb]
        by (by eapply all_flows_broad_Some).
      destruct (groupby_sum_key_intro (merge_sort pair_le)
                  (λ fb : Flow * string, (fb.2, flow_specific_topic fb.1))
                  (λ fb, flow_count fb.1) (dropna_broad (all_flows df proportional))
                  (f, b) (merge_sort_Permutation _)) as (g & Hg & Hkey).
      { apply elem_of_dropna_broad. simpl. done. }
      exists g. split; [by rewrite Hkey|done].
Qed.

(** ** The invisible labels come first *)

Lemma get_ordered_list_head (available_items order_list : list string) (x : string) :
  x ∈ available_items →
  head (get_ordered_list available_items (x :: order_list)) = Some x.
Proof.
  intros Hx. rewrite get_ordered_list_spec. simpl unique.
  rewrite filter_cons_True by (by apply elem_of_list_to_set). done.
Qed.

Lemma lookup_middle_head (l1 l2 l3 : list string) (x : string) :
  head l2 = Some x → (l1 ++ l2 ++ l3) !! length l1 = Some x.
Proof.
  intros Hx. rewrite lookup_app_r by lia. rewrite Nat.sub_diag.
  apply lookup_app_l_Some. by rewrite <-head_lookup.
Qed.

Lemma lookup_last_head (l1 l2 l3 : list string) (x : string) :
  head l3 = Some x → (l1 ++ l2 ++ l3) !! (length l1 + length l2) = Some x.
Proof.
  intros Hx. rewrite lookup_app_r by lia. rewrite lookup_app_r by lia.
  replace (length l1 + length l2 - length l1 - length l2) with 0 by lia.
  by rewrite <-head_lookup.
Qed.

Lemma broad_category_list_head df proportional :
  "Other" ∈ broad_category_list df proportional →
  head (broad_category_list df proportional) = Some "Other".
Proof.
  unfold broad_category_list. intros Hin%elem_of_get_ordered_list.
  exact (get_ordered_list_head _ ["Ideological"; "Financial"] "Other" Hin).
Qed.

Lemma specific_topics_head df proportional :
  "Not at-risk" ∈ specific_topics df proportional →
  head (specific_topics df proportional) = Some "Not at-risk".
Proof.
  unfold specific_topics. intros Hin%elem_of_get_ordered_list.
  exact (get_ordered_list_head _
           ["Political"; "News"; "Religious"; "Medical"; "Manosphere";
            "Extremist"; "Cryptocurrency"; "Money"; "Gambling"]
           "Not at-risk" Hin).
Qed.

(** When "Other" is a broad category of the diagram it is the first
    of its list, and when "Not at-risk" is a specific topic it is the
    first of its list: the canonical lists start with them. So the
    invisible nodes are the first nodes of the middle and of the right
    column. *)
Theorem invisible_labels_first (df : DataFrame) (proportional : bool) :
  ("Other" ∈ broad_category_list df proportional →
   node_categories df proportional !! length (fameswap_categories df) = Some "Other") ∧
  ("Not at-risk" ∈ specific_topics df proportional →
   node_categories df proportional
     !! (length (fameswap_categories df) + length (broad_category_list df proportional))
     = Some "Not at-risk").
Proof.
  split; intros Hin.
  - by apply lookup_middle_head, broad_category_list_head.
  - by apply lookup_last_head, specific_topics_head.
Qed.

Lemma invisible_labels_first_witness :
  node_categories df_example false !! length (fameswap_categories df_example) = Some "Other".
Proof.
  apply (proj1 (invisible_labels_first df_example false)).
  apply (bool_decide_unpack _). vm_compute. exact I.
Defined.

(** ** One row per flow *)

Lemma NoDup_frames_keys proportional df' (cols : list Column) :
  NoDup (topic_label <$> cols) →
  NoDup ((λ f, (tf_fameswap_category f, tf_specific_topic f))
           <$> concat (topic_frame proportional df' <$> cols)).
Proof.
  induction cols as [|c cols IH]; intros Hnd; [constructor|].
  rewrite fmap_cons in Hnd. apply NoDup_cons in Hnd as [Hc Hnd].
  rewrite fmap_cons. simpl concat. rewrite fmap_app. apply NoDup_app. split_and!.
  - rewrite topic_frame_spec. unfold mk_topic_flows. rewrite <-list_fmap_compose.
    rewrite (list_fmap_ext _ ((λ k, (k, topic_label c)) ∘ fst)
               (groupby_sum sorted fameswap_category
                  (λ r, contribution proportional r c)
                  (filter (λ r, (0 < contribution proportional r c)%Qc) df')))
      by (by intros).
    rewrite list_fmap_compose. apply NoDup_fmap_2.
    + intros k1 k2 Hk. by injection Hk.
    + apply (NoDup_groupby_sum_keys sorted sorted_Permutation).
  - intros k (f & -> & Hf)%list_elem_of_fmap (f' & Hk & Hf')%list_elem_of_fmap.
    apply elem_of_topic_frame in Hf as [Hf _].
    apply elem_of_concat in Hf' as (frame & Hframe & Hf').
    apply list_elem_of_fmap in Hframe as (c' & -> & Hc').
    apply elem_of_topic_frame in Hf' as [Hf' _].
    apply Hc. injection Hk as _ Hk. rewrite Hf, Hf' in Hk. rewrite Hk.
    by apply list_elem_of_fmap_2.
  - by apply IH.
Qed.

(** No two rows of [all_flows] have the same primary category and the
    same specific topic. *)
Lemma NoDup_all_flows_keys df proportional :
  NoDup ((λ f, (flow_fameswap_category f, flow_specific_topic f))
           <$> all_flows df proportional).
Proof.
  unfold all_flows. rewrite topic_flows_concat, <-list_fmap_compose.
  exact (NoDup_frames_keys proportional (df_filtered df) topic_columns NoDup_topic_labels).
Qed.

Lemma sum_Qc_unique_key {A K} (key : A → K) (val : A → Qc) (P : A → Prop)
    `{!∀ y, Decision (P y)} (l : list A) (x : A) :
  NoDup (key <$> l) → x ∈ l → (∀ y, y ∈ l → P y ↔ key y = key x) →
  sum_Qc (val <$> filter P l) = val x.
Proof.
  induction l as [|y l IH]; intros Hnd Hx HP; [by apply elem_of_nil in Hx|].
  rewrite fmap_cons in Hnd. apply NoDup_cons in Hnd as [Hy Hnd].
  rewrite filter_cons. apply elem_of_cons in Hx as [->|Hx].
  - rewrite decide_True by (apply HP; [left|done]).
    rewrite fmap_cons, sum_Qc_cons, sum_filter_False; [ring|].
    intros z Hz HPz. apply Hy. apply HP in HPz; [|by right].
    rewrite <-HPz. by apply list_elem_of_fmap_2.
  - rewrite decide_False.
    + apply IH; [done|done|]. intros z Hz. apply HP. by right.
    + intros HPy. apply HP in HPy; [|left]. apply Hy. rewrite HPy.
      by apply list_elem_of_fmap_2.
Qed.

(** So the weight of a flow is the [count] of its row. *)
Lemma flow_weight_elem df proportional f :
  f ∈ all_flows df proportional →
  flow_weight (all_flows df proportional)
    (flow_fameswap_category f) (flow_specific_topic f) = flow_count f.
Proof.
  intros Hf. unfold flow_weight.
  apply (sum_Qc_unique_key (λ f, (flow_fameswap_category f, flow_specific_topic f))
           flow_count _ _ f (NoDup_all_flows_keys df proportional) Hf).
  intros f' _. split; [by intros [-> ->]|]. intros Hk. by injection Hk.
Qed.

(** ** The share of one row in the flows *)

(** What a row adds to the flows is read off the frames themselves: the
    flows of a table that holds the row are compared with the flows of
    the same table without it. *)

Lemma filter_all {A} (P : A → Prop) `{!∀ x, Decision (P x)} (l : list A) :
  (∀ x, x ∈ l → P x) → filter P l = l.
Proof.
  induction l as [|x l IH]; intros HP; [done|].
  rewrite filter_cons_True by set_solver. f_equal. apply IH. set_solver.
Qed.

Lemma omap_ext_elem {A B} (f g : A → option B) (l : list A) :
  (∀ x, x ∈ l → f x = g x) → omap f l = omap g l.
Proof.
  induction l as [|x l IH]; intros Hfg; [done|].
  simpl. rewrite (Hfg x) by set_solver.
  destruct (g x); [f_equal|]; apply IH; set_solver.
Qed.

Lemma sum_Qc_fmap_add {A} (f g : A → Qc) (l : list A) :
  sum_Qc ((λ x, f x + g x)%Qc <$> l) = (sum_Qc (f <$> l) + sum_Qc (g <$> l))%Qc.
Proof.
  induction l as [|x l IH]; [simpl; ring|].
  rewrite !fmap_cons, !sum_Qc_cons, IH. ring.
Qed.

Lemma df_filtered_app df1 df2 :
  df_filtered (df1 ++ df2) = df_filtered df1 ++ df_filtered df2.
Proof. apply filter_app. Qed.

Lemma df_filtered_insert df1 r df2 :
  fameswap_category r ≠ "Beauty & Makeup" →
  df_filtered (df1 ++ r :: df2) = df_filtered df1 ++ r :: df_filtered df2.
Proof. intros Hr. unfold df_filtered. by rewrite filter_app, filter_cons_True. Qed.

Lemma df_filtered_insert_excluded df1 r df2 :
  fameswap_category r = "Beauty & Makeup" →
  df_filtered (df1 ++ r :: df2) = df_filtered (df1 ++ df2).
Proof.
  intros Hr. unfold df_filtered. rewrite !filter_app, filter_cons_False; [done|].
  intros Hne. by apply Hne.
Qed.

Lemma all_flows_ext df df' proportional :
  df_filtered df = df_filtered df' → all_flows df proportional = all_flows df' proportional.
Proof. intros Heq. unfold all_flows, topic_flows. by rewrite Heq. Qed.

(** A row that survives the exclusion adds to the flows selected by [Q]
    its contributions to the columns whose flow is selected. *)
Lemma all_flows_insert df1 r df2 proportional (Q : string → string → Prop)
    `{!∀ c t, Decision (Q c t)} :
  fameswap_category r ≠ "Beauty & Makeup" →
  sum_Qc (flow_count <$>
            filter (λ f, Q (flow_fameswap_category f) (flow_specific_topic f))
              (all_flows (df1 ++ r :: df2) proportional)) =
    (sum_Qc (flow_count <$>
               filter (λ f, Q (flow_fameswap_category f) (flow_specific_topic f))
                 (all_flows (df1 ++ df2) proportional))
     + sum_Qc ((λ topic_col,
                  if decide (Q (fameswap_category r) (topic_label topic_col))
                  then contribution proportional r topic_col else 0)
                 <$> topic_columns))%Qc.
Proof.
  intros Hr.
  etrans; [exact (all_flows_sum (df1 ++ r :: df2) proportional Q)|].
  etrans; [|apply (f_equal (λ x, x + _)%Qc); symmetry;
            exact (all_flows_sum (df1 ++ df2) proportional Q)].
  rewrite <-sum_Qc_fmap_add. apply sum_Qc_fmap_ext. intros topic_col _.
  rewrite df_filtered_insert, df_filtered_app by done.
  rewrite !filter_app, filter_cons, !fmap_app, !sum_Qc_app.
  case_decide; [rewrite fmap_cons, sum_Qc_cons|]; ring.
Qed.

Lemma flow_weight_insert df1 r df2 proportional cat topic :
  fameswap_category r ≠ "Beauty & Makeup" →
  flow_weight (all_flows (df1 ++ r :: df2) proportional) cat topic =
    (flow_weight (all_flows (df1 ++ df2) proportional) cat topic
     + sum_Qc ((λ topic_col,
                  if decide (fameswap_category r = cat ∧ topic_label topic_col = topic)
                  then contribution proportional r topic_col else 0)
                 <$> topic_columns))%Qc.
Proof.
  intros Hr.
  exact (all_flows_insert df1 r df2 proportional (λ c t, c = cat ∧ t = topic) Hr).
Qed.

Lemma all_flows_total_insert df1 r df2 proportional :
  fameswap_category r ≠ "Beauty & Makeup" →
  sum_Qc (flow_count <$> all_flows (df1 ++ r :: df2) proportional) =
    (sum_Qc (flow_count <$> all_flows (df1 ++ df2) proportional)
     + sum_Qc (contribution proportional r <$> topic_columns))%Qc.
Proof.
  intros Hr.
  rewrite <-(filter_all (λ _ : Flow, True) (all_flows (df1 ++ r :: df2) proportional))
    by done.
  rewrite <-(filter_all (λ _ : Flow, True) (all_flows (df1 ++ df2) proportional))
    by done.
  etrans; [exact (all_flows_insert df1 r df2 proportional (λ _ _, True) Hr)|].
  f_equal.
Qed.

(** The level-2→level-3 edges carry the whole weight of [all_flows]. *)
Lemma specific_flows_total df proportional :
  sum_Qc (snd <$> specific_flows_sorted df proportional) =
    sum_Qc (flow_count <$> all_flows df proportional).
Proof.
  rewrite specific_flows_sorted_Permutation.
  rewrite <-(filter_all (λ _ : GroupedFlow, True) (specific_flows df proportional))
    by done.
  etrans; [exact (specific_flows_sum df proportional (λ _, True))|].
  rewrite filter_all by done.
  rewrite <-(dropna_broad_fst (all_flows df proportional))
    at 2 by apply all_flows_broad_Some.
  by rewrite <-list_fmap_compose.
Qed.

Lemma topic_columns_split : topic_columns = explicit_columns ++ [unclassified_column].
Proof. reflexivity. Qed.

Lemma contribution_true r topic_col : contribution true r topic_col = normalized r topic_col.
Proof. done. Qed.

(** C2. In the proportional mode, a row with 0/1 indicators of which
    [k ≥ 1] are set (the [unclassified] flag counted among them) is
    split into normalised values that add up to exactly 1, and these
    values are what the row adds to the specific-topic flows. For a row
    that the aggregation processes (its primary category is not the
    excluded one), at any position of any table: the row adds its
    normalised value of a column to the flow from its primary category
    to the specific topic of that column; it leaves the flows of every
    other primary category as they are; so the weights of all rows of
    [all_flows], and with them the weights of all level-2→level-3
    edges, grow by exactly 1. *)
Theorem proportional_row_flows (r : Row) :
  binary_row r → 0 < active_count r →
  sum_Qc (normalized r <$> topic_columns) = 1%Qc ∧
  ∀ df1 df2 : DataFrame,
    fameswap_category r ≠ "Beauty & Makeup" →
    (∀ i topic_col, topic_columns !! i = Some topic_col →
       flow_weight (all_flows (df1 ++ r :: df2) true)
         (fameswap_category r) (topic_label topic_col) =
       (flow_weight (all_flows (df1 ++ df2) true)
          (fameswap_category r) (topic_label topic_col)
        + normalized r topic_col)%Qc) ∧
    (∀ cat topic, cat ≠ fameswap_category r →
       flow_weight (all_flows (df1 ++ r :: df2) true) cat topic =
       flow_weight (all_flows (df1 ++ df2) true) cat topic) ∧
    sum_Qc (flow_count <$> all_flows (df1 ++ r :: df2) true) =
      (sum_Qc (flow_count <$> all_flows (df1 ++ df2) true) + 1)%Qc ∧
    sum_Qc (snd <$> specific_flows_sorted (df1 ++ r :: df2) true) =
      (sum_Qc (snd <$> specific_flows_sorted (df1 ++ df2) true) + 1)%Qc.
Proof.
  intros Hbin Hk.
  assert (sum_Qc (normalized r <$> topic_columns) = 1%Qc) as Hone.
  { rewrite normalized_row_total by done. by rewrite decide_True. }
  split; [done|]. intros df1 df2 Hr.
  assert (sum_Qc (flow_count <$> all_flows (df1 ++ r :: df2) true) =
          (sum_Qc (flow_count <$> all_flows (df1 ++ df2) true) + 1)%Qc) as Htotal.
  { rewrite all_flows_total_insert by done. f_equal. exact Hone. }
  split_and!.
  - intros i topic_col Hcol%list_elem_of_lookup_2.
    rewrite flow_weight_insert by done. f_equal.
    rewrite <-(sum_Qc_select topic_label (normalized r) topic_columns topic_col
                 NoDup_topic_labels Hcol).
    apply sum_Qc_fmap_ext. intros c _. rewrite contribution_true.
    apply decide_ext. tauto.
  - intros cat topic Hcat. rewrite flow_weight_insert by done.
    rewrite sum_Qc_zero; [ring|].
    intros c _. rewrite decide_False; [done|]. intros [Heq _]. by apply Hcat.
  - exact Htotal.
  - rewrite !specific_flows_total. exact Htotal.
Qed.

Lemma proportional_row_flows_witness :
  sum_Qc (snd <$> specific_flows_sorted
                    ([mk_row "B" ["unclassified"]]
                       ++ mk_row "A" ["political_content"; "financial_content"; "news_content"]
                       :: [mk_row "A" ["political_content"]]) true) =
    (sum_Qc (snd <$> specific_flows_sorted
                       ([mk_row "B" ["unclassified"]] ++ [mk_row "A" ["political_content"]])
                       true) + 1)%Qc.
Proof.
  refine (proj2 (proj2 (proj2 (proj2
            (proportional_row_flows
               (mk_row "A" ["political_content"; "financial_content"; "news_content"]) _ _)
            [mk_row "B" ["unclassified"]] [mk_row "A" ["political_content"]] _)))).
  - unfold binary_row. apply (bool_decide_unpack _). vm_compute. exact I.
  - vm_compute. lia.
  - simpl. discriminate.
Defined.

(** The share of a row without explicit indicators in the flows
    selected by their specific topic. *)
Lemma no_signal_share (r : Row) (Q : string → Prop) `{!∀ t, Decision (Q t)} :
  Forall (λ topic_col : Column, topic_col.2 r = 0%Z) explicit_columns →
  sum_Qc ((λ topic_col,
             if decide (Q (topic_label topic_col)) then normalized r topic_col else 0%Qc)
            <$> topic_columns) =
    if decide (Q "Not at-risk") then normalized r unclassified_column else 0%Qc.
Proof.
  intros (_ & Hexp & _)%no_signal_normalized.
  rewrite topic_columns_split, fmap_app, sum_Qc_app.
  rewrite sum_Qc_zero by (intros c Hc; rewrite (Hexp c Hc); by case_decide).
  rewrite fmap_cons, fmap_nil, sum_Qc_cons.
  change (topic_label unclassified_column) with "Not at-risk". simpl. ring.
Qed.

(** C3 (as the code has it). In the proportional mode the no-signal
    indicator is the [unclassified] column, read from the table and
    normalised like every other topic column. A row whose explicit
    indicators are all 0 and whose [unclassified] flag is 1 adds, when
    it survives the exclusion, weight exactly 1 to the flow from its
    primary category to "Not at-risk" and nothing to any other flow.
    When the flag is not 1 the row adds to no flow at all: the flows of
    the table are those of the table without the row. *)
Theorem no_signal_flow (r : Row) :
  Forall (λ topic_col : Column, topic_col.2 r = 0%Z) explicit_columns →
  topic_label unclassified_column = "Not at-risk" ∧
  (unclassified r = 1%Z → normalized r unclassified_column = 1%Qc) ∧
  (unclassified r = 1%Z →
   ∀ df1 df2 : DataFrame,
     fameswap_category r ≠ "Beauty & Makeup" →
     flow_weight (all_flows (df1 ++ r :: df2) true) (fameswap_category r) "Not at-risk" =
       (flow_weight (all_flows (df1 ++ df2) true) (fameswap_category r) "Not at-risk"
        + 1)%Qc ∧
     (∀ cat topic, ¬ (cat = fameswap_category r ∧ topic = "Not at-risk") →
        flow_weight (all_flows (df1 ++ r :: df2) true) cat topic =
        flow_weight (all_flows (df1 ++ df2) true) cat topic)) ∧
  (unclassified r ≠ 1%Z →
   (∀ topic_col, topic_col ∈ topic_columns → normalized r topic_col = 0%Qc) ∧
   ∀ df1 df2 : DataFrame,
     all_flows (df1 ++ r :: df2) true = all_flows (df1 ++ df2) true).
Proof.
  intros Hzero. destruct (no_signal_normalized r Hzero) as (Hone & _ & Hnone).
  split_and!; [done|done| |].
  - intros H1 df1 df2 Hr. split.
    + rewrite flow_weight_insert by done. f_equal.
      etrans; [|exact (Hone H1)].
      etrans; [|exact (no_signal_share r (λ t, t = "Not at-risk") Hzero)].
      apply sum_Qc_fmap_ext. intros c _. rewrite contribution_true.
      apply decide_ext. tauto.
    + intros cat topic Hne. rewrite flow_weight_insert by done.
      assert (sum_Qc ((λ topic_col,
                         if decide (fameswap_category r = cat ∧ topic_label topic_col = topic)
                         then contribution true r topic_col else 0%Qc)
                        <$> topic_columns) = 0%Qc) as ->; [|ring].
      etrans; [exact (no_signal_share r (λ t, fameswap_category r = cat ∧ t = topic)
                        Hzero)|].
      apply decide_False. intros [<- <-]. by apply Hne.
  - intros Hne. split; [by apply Hnone|]. intros df1 df2.
    destruct (decide (fameswap_category r = "Beauty & Makeup")) as [Hr|Hr].
    { apply all_flows_ext. by apply df_filtered_insert_excluded. }
    unfold all_flows, topic_flows. do 2 f_equal.
    apply omap_ext_elem. intros topic_col Hcol.
    unfold proportional_flows_of. cbv zeta.
    assert (filter (λ r', (0 < normalized r' topic_col)%Qc)
                   (df_filtered (df1 ++ r :: df2))
            = filter (λ r', (0 < normalized r' topic_col)%Qc)
                   (df_filtered (df1 ++ df2))) as ->; [|done].
    rewrite df_filtered_insert, df_filtered_app by done.
    rewrite !filter_app, filter_cons_False; [done|].
    rewrite (Hnone Hne topic_col Hcol). done.
Qed.

Lemma no_signal_flow_witness :
  flow_weight (all_flows ([mk_row "A" ["political_content"]]
                            ++ mk_row "A" ["unclassified"] :: []) true)
    "A" "Not at-risk" =
    (flow_weight (all_flows ([mk_row "A" ["political_content"]] ++ []) true)
       "A" "Not at-risk" + 1)%Qc.
Proof.
  refine (proj1 (proj1 (proj2 (proj2
            (no_signal_flow (mk_row "A" ["unclassified"]) _)))
            _ [mk_row "A" ["political_content"]] [] _)).
  - apply (bool_decide_unpack _). vm_compute. exact I.
  - reflexivity.
  - simpl. discriminate.
Defined.
